(** * LangJS: the translation engine of langjs.js

    A shallow embedding of the class [LangJS] (src/langjs.js): key
    resolution with dot notation, parameter interpolation, the translation
    cache, language detection and activation, the two DOM translation
    passes and instance clean-up.

    JavaScript strings are modelled as [string]; the characters the code
    inspects (the dot, the braces, the word class of the regular
    expression, the ASCII letters of a locale tag) are single bytes.
    Objects are modelled by their own properties.  Every method becomes a
    function that takes the world (the instance and its host page) and
    returns its result together with the new world. *)

From Stdlib Require Import Ascii ZArith.
From stdpp Require Import gmap strings list pretty.

(** ** JavaScript string primitives used by the class *)

Module JS.

(** The class [\w] of a JavaScript regular expression: [A-Za-z0-9_]. *)
Definition isWordChar (c : ascii) : bool :=
  let n := N_of_ascii c in
  ((48 <=? n) && (n <=? 57) || (65 <=? n) && (n <=? 90)
   || (n =? 95) || (97 <=? n) && (n <=? 122))%N.

Definition lowerChar (c : ascii) : ascii :=
  let n := N_of_ascii c in
  if ((65 <=? n) && (n <=? 90))%N then ascii_of_N (n + 32) else c.

(** [s.toLowerCase()] on the ASCII letters of a locale tag. *)
Fixpoint toLowerCase (s : string) : string :=
  match s with
  | EmptyString => EmptyString
  | String c rest => String (lowerChar c) (toLowerCase rest)
  end.

(** [s.startsWith(p)]. *)
Fixpoint startsWith (s p : string) : bool :=
  match p with
  | EmptyString => true
  | String a p' =>
      match s with
      | EmptyString => false
      | String b s' => if decide (a = b) then startsWith s' p' else false
      end
  end.

(** [s.split(sep)] for a one-character separator: never the empty list. *)
Fixpoint split (sep : ascii) (s : string) : list string :=
  match s with
  | EmptyString => [EmptyString]
  | String c rest =>
      if decide (c = sep) then EmptyString :: split sep rest
      else match split sep rest with
           | seg :: segs => String c seg :: segs
           | [] => [String c EmptyString]
           end
  end.

(** [list.includes(x)] on an array of strings. *)
Definition includes (l : list string) (x : string) : bool :=
  bool_decide (x ∈ l).

(** The longest prefix of word characters of [s], and what follows it:
    how the greedy [\w+] of the placeholder pattern consumes input. *)
Fixpoint wordPrefix (s : string) : string * string :=
  match s with
  | EmptyString => (EmptyString, EmptyString)
  | String c rest =>
      if isWordChar c
      then let '(w, r) := wordPrefix rest in (String c w, r)
      else (EmptyString, s)
  end.

(** A match of [/\{(\w+)\}/] anchored at the start of [s]: the captured
    name, when [s] begins with an opening brace, one or more word
    characters and a closing brace. *)
Definition matchToken (s : string) : option string :=
  match s with
  | String c rest =>
      if decide (c = "{"%char) then
        match wordPrefix rest with
        | (String a w, String d _) =>
            if decide (d = "}"%char) then Some (String a w) else None
        | _ => None
        end
      else None
  | EmptyString => None
  end.




(** [text.replace(/\{(\w+)\}/g, f)]: the text is scanned from the left;
    where the pattern matches, [f match name] is emitted and the scan
    resumes after the closing brace ([skip] counts the characters of the
    current match still to be passed over); elsewhere the character is
    copied.  What [f] returns is emitted as it is, never scanned. *)
Fixpoint replaceTokens (f : string → string → string)
    (skip : nat) (text : string) : string :=
  match text with
  | EmptyString => EmptyString
  | String c rest =>
      match skip with
      | S k => replaceTokens f k rest
      | O =>
          match matchToken text with
          | Some name =>
              f ("{" +:+ name +:+ "}") name
                +:+ replaceTokens f (S (String.length name)) rest
          | None => String c (replaceTokens f 0 rest)
          end
      end
  end.

End JS.

(** ** Data model *)

(** A dictionary node: a translated string or a group of named nodes.
    A language file parses to such a tree: it holds strings and nested
    objects. *)
#[warnings="-register-all"]
Inductive Value : Type :=
| VStr (s : string)
| VObj (fields : gmap string Value).

(** The value of an interpolation parameter: a string, or a number
    without a fraction (printed in decimal). *)
Inductive ParamValue : Type :=
| PStr (s : string)
| PNum (n : Z).

(** [params]: the own enumerable properties of the parameter object, in
    the order [Object.keys] lists them. *)
Definition ParamMap : Type := list (string * ParamValue).

(** [String(v)], the conversion [replace] applies to what its callback
    returns. *)
Definition toString (v : ParamValue) : string :=
  match v with
  | PStr s => s
  | PNum n => pretty n
  end.

(** [params[name]] when [params.hasOwnProperty(name)]. *)
Fixpoint lookupParam (params : ParamMap) (name : string) : option ParamValue :=
  match params with
  | [] => None
  | (k, v) :: rest => if decide (k = name) then Some v else lookupParam rest name
  end.

(** langjs.js, [interpolate(text, params)]:
      text.replace(/\{(\w+)\}/g, (match, key) =>
        params.hasOwnProperty(key) ? params[key] : match) *)
Definition interpolate (text : string) (params : ParamMap) : string :=
  JS.replaceTokens
    (fun match_ key =>
       match lookupParam params key with
       | Some v => toString v
       | None => match_
       end)
    0 text.

(** ** [JSON.stringify] on a parameter object *)

Module JSON.

Definition hexDigit (n : N) : ascii :=
  ascii_of_N (if (n <? 10)%N then 48 + n else 87 + n).

(** The escape of one character inside a JSON string. *)
Definition escapeChar (c : ascii) : string :=
  let n := N_of_ascii c in
  if (n =? 34)%N then String "\" (String "034" "")
  else if (n =? 92)%N then "\\"
  else if (n =? 8)%N then "\b"
  else if (n =? 9)%N then "\t"
  else if (n =? 10)%N then "\n"
  else if (n =? 12)%N then "\f"
  else if (n =? 13)%N then "\r"
  else if (n <? 32)%N
       then "\u00" +:+ String (hexDigit (n / 16)) (String (hexDigit (n mod 16)) "")
  else String c "".

Fixpoint escape (s : string) : string :=
  match s with
  | EmptyString => EmptyString
  | String c rest => escapeChar c +:+ escape rest
  end.

Definition quote (s : string) : string :=
  String "034" (escape s +:+ String "034" "").

Definition value (v : ParamValue) : string :=
  match v with
  | PStr s => quote s
  | PNum n => pretty n
  end.

Fixpoint members (params : ParamMap) : string :=
  match params with
  | [] => ""
  | [(k, v)] => quote k +:+ ":" +:+ value v
  | (k, v) :: rest => quote k +:+ ":" +:+ value v +:+ "," +:+ members rest
  end.

Definition stringify (params : ParamMap) : string :=
  "{" +:+ members params +:+ "}".

End JSON.

(** ** The document *)

(** A DOM node: a text node or an element with its [tagName], its content
    attributes, the IDL properties the class assigns ([value],
    [placeholder], [title], [lang]) and its child nodes. *)
#[warnings="-register-all"]
Inductive Node : Type :=
| Text (data : string)
| Element (tagName : string) (attrs props : list (string * string))
    (childNodes : list Node).

(** The position of a node below a root: the child indices to follow. *)
Definition Path : Type := list nat.

Module Dom.

Fixpoint assoc (name : string) (l : list (string * string)) : option string :=
  match l with
  | [] => None
  | (k, v) :: rest => if decide (k = name) then Some v else assoc name rest
  end.

(** Replace the value bound to [name], or add the binding at the end. *)
Fixpoint assocSet (name v : string) (l : list (string * string))
    : list (string * string) :=
  match l with
  | [] => [(name, v)]
  | (k, x) :: rest =>
      if decide (k = name) then (k, v) :: rest else (k, x) :: assocSet name v rest
  end.

(** [el.getAttribute(name)]: [None] is JavaScript's [null]. *)
Definition getAttribute (name : string) (el : Node) : option string :=
  match el with
  | Element _ attrs _ _ => assoc name attrs
  | Text _ => None
  end.

Definition hasAttribute (name : string) (el : Node) : bool :=
  bool_decide (is_Some (getAttribute name el)).

Definition tagNameOf (el : Node) : string :=
  match el with
  | Element tag _ _ _ => tag
  | Text _ => ""
  end.

(** [el.setAttribute(name, v)]. *)
Definition setAttribute (name v : string) (el : Node) : Node :=
  match el with
  | Element tag attrs props kids => Element tag (assocSet name v attrs) props kids
  | Text _ => el
  end.

(** [el.name = v] for an IDL property. *)
Definition setProperty (name v : string) (el : Node) : Node :=
  match el with
  | Element tag attrs props kids => Element tag attrs (assocSet name v props) kids
  | Text _ => el
  end.

(** [el.textContent = v]: every child is removed; a single text node is
    added unless [v] is empty. *)
Definition setTextContent (v : string) (el : Node) : Node :=
  match el with
  | Element tag attrs props _ =>
      Element tag attrs props (if decide (v = "") then [] else [Text v])
  | Text _ => el
  end.

(** All elements of the tree rooted at [n], in document order, each with
    its position and a reference to the element as it is now. *)
Fixpoint elements (n : Node) : list (Path * Node) :=
  match n with
  | Text _ => []
  | Element _ _ _ kids =>
      ([], n) ::
      (fix below (i : nat) (ks : list Node) : list (Path * Node) :=
         match ks with
         | [] => []
         | k :: ks' =>
             map (fun '(p, e) => (i :: p, e)) (elements k) ++ below (S i) ks'
         end) 0 kids
  end.

(** [el.querySelectorAll("[attr]")]: the descendants of [el] that carry
    the attribute, as a static list. *)
Definition querySelectorAll (attr : string) (el : Node) : list (Path * Node) :=
  filter (fun '(p, e) => p ≠ [] ∧ is_Some (getAttribute attr e)) (elements el).

(** [document.querySelectorAll("[attr]")]: the same over every element
    of the document, its root element included. *)
Definition documentQuerySelectorAll (attr : string) (root : Node)
    : list (Path * Node) :=
  filter (fun '(p, e) => is_Some (getAttribute attr e)) (elements root).

(** Apply a write to the element at position [p].  An element that an
    earlier write of the same pass detached (an ancestor's text content
    was replaced) is no longer below the root: the write leaves the tree
    as it is. *)
Fixpoint updateAt (p : Path) (f : Node → Node) (n : Node) : Node :=
  match p with
  | [] => f n
  | i :: p' =>
      match n with
      | Element tag attrs props kids =>
          Element tag attrs props (alter (updateAt p' f) i kids)
      | Text _ => n
      end
  end.

End Dom.

(** ** The instance and its host *)

(** [this.config].  The change callback is modelled by its outcome: [None]
    when it returns, [Some message] when it throws an error. *)
Record Config : Type := {
  languagePath : string;
  defaultLanguage : string;
  persistKey : string;
  fallbackLanguage : string;
  detectBrowser : bool;
  attributes : list string;
  placeholderAttribute : string;
  titleAttribute : string;
  autoInit : bool;
  onLanguageChange : option (string → option string);
  debug : bool
}.

(** The fields of a [LangJS] instance.  [availableLanguages] and the
    members of [observers] are references: to an array of the host's heap
    and to mutation observers of the host. *)
Record LangJS : Type := {
  config : Config;
  currentLanguage : option string;
  languageDict : Value;
  availableLanguages : nat;
  observers : list nat;
  translationCache : gmap string Value
}.

(** What [fetch(url)] and [response.json()] can come to. *)
Inductive FetchOutcome : Type :=
| NetworkError (message : string)
| Response (ok : bool) (status : nat) (statusText : string)
    (json : Value + string).

(** The page the instance runs in: the heap of arrays, [localStorage]
    ([None] when access throws), [navigator.language], the document, the
    mutation observers that are observing, the console, and the network:
    [server] answers a request from the requests made before it and the
    URL.  [requests] and [resolutions] record the requests made and the
    number of dictionary walks [get] has performed. *)
Record Host : Type := {
  arrays : gmap nat (list string);
  localStorage : option (gmap string string);
  navigatorLanguage : string;
  document : Node;
  observing : gset nat;
  console : list (string * string);
  server : list string → string → FetchOutcome;
  requests : list string;
  resolutions : nat
}.

Record World : Type := { this : LangJS; host : Host }.

Definition withThis (f : LangJS → LangJS) (w : World) : World :=
  {| this := f (this w); host := host w |}.

Definition withHost (f : Host → Host) (w : World) : World :=
  {| this := this w; host := f (host w) |}.

Definition setTranslationCache (c : gmap string Value) (t : LangJS) : LangJS :=
  {| config := config t; currentLanguage := currentLanguage t;
     languageDict := languageDict t; availableLanguages := availableLanguages t;
     observers := observers t; translationCache := c |}.

Definition setLanguageDict (d : Value) (t : LangJS) : LangJS :=
  {| config := config t; currentLanguage := currentLanguage t;
     languageDict := d; availableLanguages := availableLanguages t;
     observers := observers t; translationCache := translationCache t |}.

Definition setCurrentLanguage (l : option string) (t : LangJS) : LangJS :=
  {| config := config t; currentLanguage := l;
     languageDict := languageDict t; availableLanguages := availableLanguages t;
     observers := observers t; translationCache := translationCache t |}.

Definition setObservers (os : list nat) (t : LangJS) : LangJS :=
  {| config := config t; currentLanguage := currentLanguage t;
     languageDict := languageDict t; availableLanguages := availableLanguages t;
     observers := os; translationCache := translationCache t |}.

Definition setArrays (a : gmap nat (list string)) (h : Host) : Host :=
  {| arrays := a; localStorage := localStorage h;
     navigatorLanguage := navigatorLanguage h; document := document h;
     observing := observing h; console := console h; server := server h;
     requests := requests h; resolutions := resolutions h |}.

Definition setLocalStorage (s : option (gmap string string)) (h : Host) : Host :=
  {| arrays := arrays h; localStorage := s;
     navigatorLanguage := navigatorLanguage h; document := document h;
     observing := observing h; console := console h; server := server h;
     requests := requests h; resolutions := resolutions h |}.

Definition setDocument (d : Node) (h : Host) : Host :=
  {| arrays := arrays h; localStorage := localStorage h;
     navigatorLanguage := navigatorLanguage h; document := d;
     observing := observing h; console := console h; server := server h;
     requests := requests h; resolutions := resolutions h |}.

Definition setObserving (o : gset nat) (h : Host) : Host :=
  {| arrays := arrays h; localStorage := localStorage h;
     navigatorLanguage := navigatorLanguage h; document := document h;
     observing := o; console := console h; server := server h;
     requests := requests h; resolutions := resolutions h |}.

Definition setConsole (c : list (string * string)) (h : Host) : Host :=
  {| arrays := arrays h; localStorage := localStorage h;
     navigatorLanguage := navigatorLanguage h; document := document h;
     observing := observing h; console := c; server := server h;
     requests := requests h; resolutions := resolutions h |}.

Definition setRequests (r : list string) (h : Host) : Host :=
  {| arrays := arrays h; localStorage := localStorage h;
     navigatorLanguage := navigatorLanguage h; document := document h;
     observing := observing h; console := console h; server := server h;
     requests := r; resolutions := resolutions h |}.

Definition setResolutions (n : nat) (h : Host) : Host :=
  {| arrays := arrays h; localStorage := localStorage h;
     navigatorLanguage := navigatorLanguage h; document := document h;
     observing := observing h; console := console h; server := server h;
     requests := requests h; resolutions := n |}.

(** ** Methods *)

(** [log(message, type = 'log')]. *)
Definition log (message type : string) (w : World) : World :=
  if debug (config (this w))
  then withHost (fun h => setConsole (console h ++ [(type, "[LangJS] " +:+ message)]) h) w
  else w.

(** The array [this.availableLanguages] refers to. *)
Definition availableList (w : World) : list string :=
  default [] (arrays (host w) !! availableLanguages (this w)).

(** The loop of [get] over the segments of the key: [Some v] when every
    segment was found ([value] an object with the segment as a key at
    each step), [None] when the loop broke off.  The test [k in value] is
    read on the properties of the parsed language file; the names an
    object inherits from its prototype are not part of the model. *)
Fixpoint walk (value : Value) (keys : list string) : option Value :=
  match keys with
  | [] => Some value
  | k :: rest =>
      match value with
      | VObj fields =>
          match fields !! k with
          | Some v => walk v rest
          | None => None
          end
      | VStr _ => None
      end
  end.

(** The parameter replacement of [get]: only on a string, and only when
    [Object.keys(params).length > 0]. *)
Definition applyParams (value : Value) (params : ParamMap) : Value :=
  match value with
  | VStr s =>
      if bool_decide (0 < length params) then VStr (interpolate s params) else value
  | VObj _ => value
  end.

Definition cacheKey (key : string) (params : ParamMap) : string :=
  key +:+ "_" +:+ JSON.stringify params.

(** What [get] computes for a key that is not in the cache. *)
Definition resolve (dict : Value) (key : string) (params : ParamMap) : Value :=
  applyParams
    (match walk dict (JS.split "." key) with
     | Some v => v
     | None => VStr key
     end) params.

(** [get(key, params = {})]. *)
Definition get (key : string) (params : ParamMap) (w : World) : Value * World :=
  let ck := cacheKey key params in
  match translationCache (this w) !! ck with
  | Some cached => (cached, w)
  | None =>
      let w := withHost (fun h => setResolutions (S (resolutions h)) h) w in
      let '(value, w) :=
        match walk (languageDict (this w)) (JS.split "." key) with
        | Some v => (v, w)
        | None => (VStr key, log ("Translation key not found: " +:+ key) "warn" w)
        end in
      let value := applyParams value params in
      (value,
       withThis (fun t => setTranslationCache (<[ck := value]> (translationCache t)) t) w)
  end.

(** [getCurrentLanguage()]. *)
Definition getCurrentLanguage (w : World) : option string :=
  currentLanguage (this w).

(** [getAvailableLanguages()]: the spread [[...this.availableLanguages]]
    allocates a new array; the method returns the reference to it. *)
Definition getAvailableLanguages (w : World) : nat * World :=
  let copy := fresh (dom (arrays (host w))) in
  (copy, withHost (fun h => setArrays (<[copy := availableList w]> (arrays h)) h) w).

(** [isLanguageAvailable(lang)]. *)
Definition isLanguageAvailable (lang : string) (w : World) : bool :=
  JS.includes (availableList w) lang.

(** What a caller can do to an array it holds a reference to: any
    in-place mutation (push, pop, splice, an indexed assignment, a change
    of [length]) leaves the array at [ref] with some contents [l]. *)
Definition mutateArray (ref : nat) (l : list string) (w : World) : World :=
  withHost (fun h => setArrays (<[ref := l]> (arrays h)) h) w.

(** [saveLanguage(lang)]. *)
Definition saveLanguage (lang : string) (w : World) : World :=
  match localStorage (host w) with
  | Some items =>
      withHost (setLocalStorage (Some (<[persistKey (config (this w)) := lang]> items))) w
  | None => log "Could not save language preference" "warn" w
  end.

(** [getStoredLanguage()]: [None] is [null]. *)
Definition getStoredLanguage (w : World) : option string :=
  match localStorage (host w) with
  | Some items => items !! persistKey (config (this w))
  | None => None
  end.

(** [detectLanguage()]. *)
Definition detectLanguage (w : World) : string :=
  let cfg := config (this w) in
  let fromBrowser :=
    if detectBrowser cfg then
      let browserLang := JS.toLowerCase (navigatorLanguage (host w)) in
      match List.find (fun lang => JS.startsWith browserLang lang) (availableList w) with
      | Some lang => lang
      | None => defaultLanguage cfg
      end
    else defaultLanguage cfg in
  match getStoredLanguage w with
  | Some savedLang =>
      if bool_decide (savedLang ≠ "") && JS.includes (availableList w) savedLang
      then savedLang
      else fromBrowser
  | None => fromBrowser
  end.

(** [loadLanguageFile(lang)]: the data, or the message of the error
    thrown. *)
Definition loadLanguageFile (lang : string) (w : World) : (Value + string) * World :=
  let url := languagePath (config (this w)) +:+ lang +:+ ".json" in
  let outcome := server (host w) (requests (host w)) url in
  let w := withHost (fun h => setRequests (requests h ++ [url]) h) w in
  match outcome with
  | NetworkError message => (inr message, w)
  | Response ok status statusText json =>
      if ok then (json, w)
      else (inr ("HTTP " +:+ pretty status +:+ ": " +:+ statusText), w)
  end.

(** The string a DOM property or attribute receives when it is assigned
    a value [get] returned. *)
Definition toDOMString (v : Value) : string :=
  match v with
  | VStr s => s
  | VObj _ => "[object Object]"
  end.

(** The body shared by the [forEach] loops of both passes, run over a
    static list of elements: read the key from the marker attribute, and,
    unless it is empty, write the translation with [write]. *)
Definition translateEach (attr : string) (write : Node → string → Node → Node)
    (els : list (Path * Node)) (root : Node) (w : World) : Node * World :=
  foldl
    (fun '(root, w) '(p, el) =>
       match Dom.getAttribute attr el with
       | Some key =>
           if decide (key = "") then (root, w)
           else let '(translation, w) := get key [] w in
                (Dom.updateAt p (write el (toDOMString translation)) root, w)
       | None => (root, w)
       end)
    (root, w) els.

Definition writeContent (el : Node) (translation : string) : Node → Node :=
  if bool_decide (Dom.tagNameOf el = "INPUT") || bool_decide (Dom.tagNameOf el = "TEXTAREA")
  then Dom.setProperty "value" translation
  else Dom.setTextContent translation.

(** [translatePage()]. *)
Definition translatePage (w : World) : World :=
  let cfg := config (this w) in
  let '(doc, w) :=
    foldl
      (fun '(doc, w) attr =>
         translateEach attr writeContent (Dom.documentQuerySelectorAll attr doc) doc w)
      (document (host w), w) (attributes cfg) in
  let '(doc, w) :=
    translateEach (placeholderAttribute cfg) (fun _ => Dom.setProperty "placeholder")
      (Dom.documentQuerySelectorAll (placeholderAttribute cfg) doc) doc w in
  let '(doc, w) :=
    translateEach (titleAttribute cfg) (fun _ => Dom.setProperty "title")
      (Dom.documentQuerySelectorAll (titleAttribute cfg) doc) doc w in
  let '(doc, w) :=
    translateEach "translate-aria" (fun _ => Dom.setAttribute "aria-label")
      (Dom.documentQuerySelectorAll "translate-aria" doc) doc w in
  withHost (setDocument doc) w.

(** [translateElement(element)]: the element after the pass, and the new
    world. *)
Definition translateElement (element : Node) (w : World) : Node * World :=
  let cfg := config (this w) in
  let '(element, w) :=
    foldl
      (fun '(element, w) attr =>
         if Dom.hasAttribute attr element then
           match Dom.getAttribute attr element with
           | Some key =>
               if decide (key = "") then (element, w)
               else let '(translation, w) := get key [] w in
                    (Dom.setTextContent (toDOMString translation) element, w)
           | None => (element, w)
           end
         else (element, w))
      (element, w) (attributes cfg) in
  match element with
  | Element _ _ _ _ =>
      foldl
        (fun '(element, w) attr =>
           translateEach attr (fun _ => Dom.setTextContent)
             (Dom.querySelectorAll attr element) element w)
        (element, w) (attributes cfg)
  | Text _ => (element, w)
  end.

Definition dquote : string := String "034" "".

(** [setLanguage(lang)].  The method calls itself in its [catch] block;
    [fuel] bounds the depth of these calls.  The awaited load is one
    step: the request is recorded and its outcome is known at once. *)
Fixpoint setLanguage (fuel : nat) (lang : string) (w : World) : option (bool * World) :=
  match fuel with
  | O => None
  | S fuel =>
      let cfg := config (this w) in
      let '(lang, w) :=
        if JS.includes (availableList w) lang then (lang, w)
        else (fallbackLanguage cfg,
              log ("Language " +:+ dquote +:+ lang +:+ dquote
                   +:+ " not available. Using fallback.") "warn" w) in
      let catch (message : string) (w : World) :=
        let w := log ("Failed to load language " +:+ dquote +:+ lang +:+ dquote
                      +:+ ": " +:+ message) "error" w in
        if decide (lang ≠ fallbackLanguage cfg)
        then setLanguage fuel (fallbackLanguage cfg) w
        else Some (false, w) in
      match loadLanguageFile lang w with
      | (inl langData, w) =>
          let w := withThis (setLanguageDict langData) w in
          let w := withThis (setCurrentLanguage (Some lang)) w in
          let w := withThis (setTranslationCache ∅) w in
          let w := saveLanguage lang w in
          let w := translatePage w in
          let w :=
            withHost (fun h => setDocument (Dom.setProperty "lang" lang (document h)) h) w in
          match
            match onLanguageChange cfg with
            | Some callback => callback lang
            | None => None
            end
          with
          | Some message => catch message w
          | None => Some (true, log ("Language set to: " +:+ lang) "log" w)
          end
      | (inr message, w) => catch message w
      end
  end.

(** [observeDOMChanges()]: a new observer starts observing and is pushed
    on [this.observers]. *)
Definition observeDOMChanges (w : World) : World :=
  let observer := fresh (observing (host w) ∪ list_to_set (observers (this w))) in
  let w := withHost (fun h => setObserving ({[observer]} ∪ observing h) h) w in
  withThis (fun t => setObservers (observers t ++ [observer]) t) w.

(** [destroy()]. *)
Definition destroy (w : World) : World :=
  let w :=
    withHost
      (fun h =>
         setObserving
           (foldl (fun o observer => o ∖ {[observer]}) (observing h) (observers (this w))) h)
      w in
  let w := withThis (setObservers []) w in
  let w := withThis (setTranslationCache ∅) w in
  log "LangJS instance destroyed" "log" w.

(** ** Notions used to state the properties *)

(** Every entry of the cache is what [get] computes, under the current
    dictionary, for some key and parameters with that cache key. *)
Definition cacheValid (w : World) : Prop :=
  ∀ ck v, translationCache (this w) !! ck = Some v →
    ∃ key params, ck = cacheKey key params
                  ∧ v = resolve (languageDict (this w)) key params.

(** A sequence of [get] calls, results dropped. *)
Definition gets (calls : list (string * ParamMap)) (w : World) : World :=
  foldl (fun w '(key, params) => snd (get key params w)) w calls.

(** What the page and its scripts can do to the world, one call at a
    time. *)
Inductive step : World → World → Prop :=
| step_get key params w : step w (snd (get key params w))
| step_setLanguage fuel lang w ok w' :
    setLanguage fuel lang w = Some (ok, w') → step w w'
| step_translatePage w : step w (translatePage w)
| step_translateElement element w : step w (snd (translateElement element w))
| step_observeDOMChanges w : step w (observeDOMChanges w)
| step_destroy w : step w (destroy w)
| step_getAvailableLanguages w : step w (snd (getAvailableLanguages w))
| step_mutateArray ref l w : step w (mutateArray ref l w).

(** The parts of [setLanguage]: the language the load is attempted for,
    the world after the availability check, the statements of the [try]
    block between the load and the change callback, and the [catch]
    block. *)
Definition requested (lang : string) (w : World) : string :=
  if JS.includes (availableList w) lang then lang
  else fallbackLanguage (config (this w)).

Definition announced (lang : string) (w : World) : World :=
  if JS.includes (availableList w) lang then w
  else log ("Language " +:+ dquote +:+ lang +:+ dquote
            +:+ " not available. Using fallback.") "warn" w.

Definition applyLanguage (lang : string) (langData : Value) (w : World) : World :=
  let w := withThis (setLanguageDict langData) w in
  let w := withThis (setCurrentLanguage (Some lang)) w in
  let w := withThis (setTranslationCache ∅) w in
  let w := saveLanguage lang w in
  let w := translatePage w in
  withHost (fun h => setDocument (Dom.setProperty "lang" lang (document h)) h) w.

Definition recover (fuel : nat) (cfg : Config) (lang message : string) (w : World)
    : option (bool * World) :=
  let w := log ("Failed to load language " +:+ dquote +:+ lang +:+ dquote
                +:+ ": " +:+ message) "error" w in
  if decide (lang ≠ fallbackLanguage cfg)
  then setLanguage fuel (fallbackLanguage cfg) w
  else Some (false, w).

Definition languageUrl (lang : string) (w : World) : string :=
  languagePath (config (this w)) +:+ lang +:+ ".json".

(** What an activation leaves behind for the page: its result, the
    instance and the document. *)
Definition outcome (r : option (bool * World)) : option (bool * LangJS * Node) :=
  (fun '(ok, w) => (ok, this w, document (host w))) <$> r.




(** ** Reading the text of a parameter object

    What is needed to show that a cache key has one reading only: a scan
    that follows the strings of JSON text, and the inverse of the escape
    of a character. *)

(** Where a scan of JSON text stands: outside every string, inside a
    string, or right after a backslash inside a string. *)
Inductive ScanState : Type := Outside | Inside | Escaped.

(** The characters of a number: the digits and the minus sign. *)
Definition isNumeric (c : ascii) : bool :=
  let n := N_of_ascii c in ((48 <=? n) && (n <=? 57) || (n =? 45))%N.

(** The characters that stand outside the strings of the text: those of
    a number, the braces, the colon and the comma. *)
Definition isStructural (c : ascii) : bool :=
  let n := N_of_ascii c in
  isNumeric c || ((n =? 123) || (n =? 125) || (n =? 58) || (n =? 44))%N.

Definition scanStep (s : ScanState) (c : ascii) : option ScanState :=
  match s with
  | Outside =>
      if decide (c = "034"%char) then Some Inside
      else if isStructural c then Some Outside else None
  | Inside =>
      if decide (c = "034"%char) then Some Outside
      else if decide (c = "\"%char) then Some Escaped else Some Inside
  | Escaped => Some Inside
  end.

Fixpoint scan (s : ScanState) (text : string) : option ScanState :=
  match text with
  | EmptyString => Some s
  | String c rest =>
      match scanStep s c with
      | Some s' => scan s' rest
      | None => None
      end
  end.

Fixpoint allNumeric (s : string) : bool :=
  match s with
  | EmptyString => true
  | String c rest => isNumeric c && allNumeric rest
  end.

Definition hexValue (c : ascii) : N :=
  let n := N_of_ascii c in
  if (n <? 58)%N then (n - 48)%N else (n - 87)%N.

(** Read back one character of a JSON string: the inverse of
    [JSON.escapeChar]. *)
Definition unescapeChar (s : string) : option (ascii * string) :=
  match s with
  | String c rest =>
      if decide (c = "\"%char) then
        match rest with
        | String t rest' =>
            if decide (t = "u"%char) then
              match rest' with
              | String _ (String _ (String h1 (String h2 rest''))) =>
                  Some (ascii_of_N (16 * hexValue h1 + hexValue h2), rest'')
              | _ => None
              end
            else if decide (t = "b"%char) then Some ("008"%char, rest')
            else if decide (t = "t"%char) then Some ("009"%char, rest')
            else if decide (t = "n"%char) then Some ("010"%char, rest')
            else if decide (t = "f"%char) then Some ("012"%char, rest')
            else if decide (t = "r"%char) then Some ("013"%char, rest')
            else Some (t, rest')
        | EmptyString => None
        end
      else Some (c, rest)
  | EmptyString => None
  end.

(** What follows a value in the text starts with a comma or a brace:
    no character of a number, no quote. *)
Definition startsWithSeparator (t : string) : Prop :=
  ∃ c rest, t = String c rest ∧ isNumeric c = false ∧ c ≠ "034"%char.

(** The two scans stand on opposite sides of a quote. *)
Definition opposite (s1 s2 : ScanState) : Prop :=
  s1 = Inside ∧ s2 = Outside ∨ s1 = Outside ∧ s2 = Inside.

(** ** Sample configurations, dictionaries and pages *)

(** The configuration the constructor builds from an empty object. *)
Definition defaultConfig : Config :=
  {| languagePath := "./lang/"; defaultLanguage := "en";
     persistKey := "langjs_language"; fallbackLanguage := "en";
     detectBrowser := true; attributes := ["translate"; "data-translate"];
     placeholderAttribute := "translate-placeholder";
     titleAttribute := "translate-title"; autoInit := true;
     onLanguageChange := None; debug := false |}.

Definition withoutDetection : Config :=
  {| languagePath := "./lang/"; defaultLanguage := "en";
     persistKey := "langjs_language"; fallbackLanguage := "en";
     detectBrowser := false; attributes := ["translate"; "data-translate"];
     placeholderAttribute := "translate-placeholder";
     titleAttribute := "translate-title"; autoInit := true;
     onLanguageChange := None; debug := false |}.

(** The fields the constructor initialises, for a configuration and a
    reference to the array of available languages. *)
Definition newInstance (cfg : Config) (available : nat) : LangJS :=
  {| config := cfg; currentLanguage := None; languageDict := VObj ∅;
     availableLanguages := available; observers := [];
     translationCache := ∅ |}.

Definition navDictionary : Value :=
  VObj {[ "nav" := VObj {[ "home" := VStr "Home" ]} ]}.

Definition english : Value :=
  VObj {[ "nav" := VObj {[ "home" := VStr "Home" ]};
          "form" := VObj {[ "name" := VStr "Name" ]};
          "welcome" := VStr "Hello {name}!" ]}.

Definition page (body : list Node) : Node :=
  Element "HTML" [] [] [Element "BODY" [] [] body].

Definition placeholderInput : Node :=
  Element "INPUT" [("type", "text"); ("translate-placeholder", "form.name")] [] [].

Definition contentInput : Node :=
  Element "INPUT" [("translate", "form.name")] [] [].

Definition navLink : Node := Element "A" [("translate", "nav.home")] [] [].

(** A server that has only [./lang/en.json]. *)
Definition englishOnly (_ : list string) (url : string) : FetchOutcome :=
  if decide (url = "./lang/en.json") then Response true 200 "OK" (inl english)
  else Response false 404 "Not Found" (inr "Unexpected end of JSON input").

Definition unreachable (_ : list string) (_ : string) : FetchOutcome :=
  NetworkError "Failed to fetch".

(** A page in a French browser; the array at reference 0 holds the
    available languages. *)
Definition browser (doc : Node) (srv : list string → string → FetchOutcome) : Host :=
  {| arrays := {[ 0 := ["en"; "fr"] ]}; localStorage := Some ∅;
     navigatorLanguage := "fr-FR"; document := doc; observing := ∅;
     console := []; server := srv; requests := []; resolutions := 0 |}.

Definition freshWorld : World :=
  {| this := newInstance defaultConfig 0;
     host := browser (page [navLink; placeholderInput]) englishOnly |}.

Definition offlineWorld : World :=
  {| this := newInstance defaultConfig 0;
     host := browser (page [navLink]) unreachable |}.

Definition noDetectionWorld : World :=
  {| this := newInstance withoutDetection 0;
     host := browser (page []) englishOnly |}.

Definition navWorld : World :=
  {| this := setCurrentLanguage (Some "en")
               (setLanguageDict navDictionary (newInstance defaultConfig 0));
     host := browser (page [navLink]) englishOnly |}.

(** An instance that is showing French and has resolved a key. *)
Definition french : Value :=
  VObj {[ "nav" := VObj {[ "home" := VStr "Accueil" ]} ]}.

Definition frenchWorld : World :=
  {| this := setTranslationCache {[ cacheKey "nav.home" [] := VStr "Accueil" ]}
               (setCurrentLanguage (Some "fr")
                  (setLanguageDict french (newInstance defaultConfig 0)));
     host := browser (page [navLink; placeholderInput]) englishOnly |}.

Definition formWorld : World :=
  {| this := setCurrentLanguage (Some "en")
               (setLanguageDict english (newInstance defaultConfig 0));
     host := browser (page [placeholderInput; contentInput]) englishOnly |}.

(** ** The rest of the class *)

(** [el.name] for an IDL property the class has assigned; [None] when
    it has not. *)
Definition getProperty (name : string) (el : Node) : option string :=
  match el with
  | Element _ _ props _ => Dom.assoc name props
  | Text _ => None
  end.

Definition rtlLanguages : list string := ["ar"; "he"; "fa"; "ur"].

(** [getLanguageDirection()]: [includes] compares the whole tag; a
    [null] current language is not in the list. *)
Definition getLanguageDirection (w : World) : string :=
  match currentLanguage (this w) with
  | Some lang => if JS.includes rtlLanguages lang then "rtl" else "ltr"
  | None => "ltr"
  end.

(** [applyDirection()]. *)
Definition applyDirection (w : World) : World :=
  withHost
    (fun h => setDocument (Dom.setProperty "dir" (getLanguageDirection w) (document h)) h)
    w.

(** The object given to the constructor: every option may be missing.
    [inAvailableLanguages] is a reference to an array of the caller. *)
Record ConfigInput : Type := {
  inLanguagePath : option string;
  inDefaultLanguage : option string;
  inPersistKey : option string;
  inFallbackLanguage : option string;
  inDetectBrowser : option bool;
  inAttributes : option (list string);
  inPlaceholderAttribute : option string;
  inTitleAttribute : option string;
  inAutoInit : option bool;
  inOnLanguageChange : option (string → option string);
  inDebug : option bool;
  inAvailableLanguages : option nat
}.

(** [option || fallback] on a string option: a missing and an empty
    string both give the fallback. *)
Definition orString (option : option string) (fallback : string) : string :=
  match option with
  | Some s => if decide (s = "") then fallback else s
  | None => fallback
  end.

(** [this.config = { ... }] in the constructor. *)
Definition buildConfig (input : ConfigInput) : Config :=
  {| languagePath := orString (inLanguagePath input) "./lang/";
     defaultLanguage := orString (inDefaultLanguage input) "en";
     persistKey := orString (inPersistKey input) "langjs_language";
     fallbackLanguage := orString (inFallbackLanguage input) "en";
     detectBrowser := default true (inDetectBrowser input);
     attributes := default ["translate"; "data-translate"] (inAttributes input);
     placeholderAttribute :=
       orString (inPlaceholderAttribute input) "translate-placeholder";
     titleAttribute := orString (inTitleAttribute input) "translate-title";
     autoInit := default true (inAutoInit input);
     onLanguageChange := inOnLanguageChange input;
     debug := default false (inDebug input) |}.

(** The constructor up to its last statement: the configuration and the
    fields.  [this.availableLanguages] is the caller's array when one is
    given, a new array otherwise. *)
Definition construct (input : ConfigInput) (h : Host) : World :=
  match inAvailableLanguages input with
  | Some ref => {| this := newInstance (buildConfig input) ref; host := h |}
  | None =>
      let ref := fresh (dom (arrays h)) in
      {| this := newInstance (buildConfig input) ref;
         host := setArrays (<[ref := ["en"; "fr"]]> (arrays h)) h |}
  end.

(** [init()]: [true] when it completes, [false] when its last statement
    throws.  That statement passes the current language to [log] as the
    type, so that with [debug] on the method [console[type]] is called;
    [callable] tells which names are methods of the console, and [null]
    is read as the name [null]. *)
Definition init (callable : string → bool) (fuel : nat) (w : World)
    : option (bool * World) :=
  let detectedLang := detectLanguage w in
  match setLanguage fuel detectedLang w with
  | Some (_, w) =>
      let w := observeDOMChanges w in
      if debug (config (this w)) then
        let type := default "null" (currentLanguage (this w)) in
        if callable type
        then Some (true,
                   withHost
                     (fun h =>
                        setConsole
                          (console h
                           ++ [(type, "[LangJS] LangJS initialized with language:")]) h)
                     w)
        else Some (false, w)
      else Some (true, w)
  | None => None
  end.

(** [new LangJS(input)]: the constructor starts [init] when [autoInit] is
    set and does not wait for it; the world is the one reached when
    [init] has run, whether it completed or threw. *)
Definition newLangJS (callable : string → bool) (fuel : nat)
    (input : ConfigInput) (h : Host) : option World :=
  let w := construct input h in
  if autoInit (config (this w)) then snd <$> init callable fuel w else Some w.


(** ** Further notions used to state properties *)


Fixpoint dropString (n : nat) (s : string) : string :=
  match n, s with
  | S k, String _ rest => dropString k rest
  | _, _ => s
  end.

(** An upper-case ASCII letter occurs in [s]. *)
Fixpoint hasUpper (s : string) : bool :=
  match s with
  | EmptyString => false
  | String c rest =>
      let n := N_of_ascii c in ((65 <=? n) && (n <=? 90))%N || hasUpper rest
  end.

(** The key [translateElement] ends up writing for the element itself:
    that of the last configured attribute the element carries with a
    non-empty value. *)
Definition lastMarker (attrs : list string) (el : Node) : option string :=
  foldl
    (fun found attr =>
       match Dom.getAttribute attr el with
       | Some key => if decide (key = "") then found else Some key
       | None => found
       end)
    None attrs.

(** No element of the tree carries the attribute. *)
Definition unmarked (attr : string) (n : Node) : Prop :=
  Forall (fun '(p, e) => Dom.getAttribute attr e = None) (Dom.elements n).

Definition isElement (n : Node) : bool :=
  match n with
  | Element _ _ _ _ => true
  | Text _ => false
  end.

(** ** Further samples *)

(** A change callback that throws. *)
Definition throwingCallback : Config :=
  {| languagePath := "./lang/"; defaultLanguage := "en";
     persistKey := "langjs_language"; fallbackLanguage := "en";
     detectBrowser := true; attributes := ["translate"; "data-translate"];
     placeholderAttribute := "translate-placeholder";
     titleAttribute := "translate-title"; autoInit := true;
     onLanguageChange := Some (fun _ => Some "validateForm is not defined");
     debug := false |}.

Definition callbackWorld : World :=
  {| this := newInstance throwingCallback 0;
     host := browser (page [navLink]) englishOnly |}.

(** The object of a caller that passes its own array (at reference 0)
    and switches the automatic start off, and the empty object with
    [debug] set. *)
Definition ownArrayInput : ConfigInput :=
  {| inLanguagePath := None; inDefaultLanguage := None; inPersistKey := None;
     inFallbackLanguage := None; inDetectBrowser := None; inAttributes := None;
     inPlaceholderAttribute := None; inTitleAttribute := None;
     inAutoInit := Some false; inOnLanguageChange := None; inDebug := None;
     inAvailableLanguages := Some 0 |}.


(** A page whose available tags are written with a region. *)
Definition regionalWorld : World :=
  {| this := newInstance defaultConfig 0;
     host :=
       {| arrays := {[ 0 := ["pt-BR"; "fr"] ]}; localStorage := Some ∅;
          navigatorLanguage := "pt-BR"; document := page []; observing := ∅;
          console := []; server := englishOnly; requests := [];
          resolutions := 0 |} |}.

(** The root element is still an element (or still none) and its
    properties other than [names] are what they were. *)
Definition rootKept (names : list string) (n n' : Node) : Prop :=
  isElement n' = isElement n
  ∧ ∀ name, name ∉ names → getProperty name n' = getProperty name n.

(** What an activation leaves alone: the configuration, the references
    the instance holds, the heap of arrays, the browser's language, the
    observers and the server; whether [localStorage] can be used; the
    console when [debug] is off; the requests already made; and the
    properties of the root element it does not assign. *)
Definition kept (w w' : World) : Prop :=
  config (this w') = config (this w)
  ∧ availableLanguages (this w') = availableLanguages (this w)
  ∧ observers (this w') = observers (this w)
  ∧ arrays (host w') = arrays (host w)
  ∧ navigatorLanguage (host w') = navigatorLanguage (host w)
  ∧ observing (host w') = observing (host w)
  ∧ server (host w') = server (host w)
  ∧ (localStorage (host w') = None ↔ localStorage (host w) = None)
  ∧ (debug (config (this w)) = false → console (host w') = console (host w))
  ∧ (∃ more, requests (host w') = requests (host w) ++ more)
  ∧ rootKept ["value"; "placeholder"; "title"; "lang"]
      (document (host w)) (document (host w')).

(** * Properties *)

(** ** The model on sample inputs *)

Example interpolate_name :
  interpolate "Hello {name}" [("name", PStr "John")] = "Hello John".
Proof. reflexivity. Qed.

Example interpolate_missing : interpolate "Hi {missing}" [] = "Hi {missing}".
Proof. reflexivity. Qed.

Example interpolate_count :
  interpolate "Vous avez {count} article(s)" [("count", PNum 5)]
  = "Vous avez 5 article(s)".
Proof. reflexivity. Qed.

Example interpolate_not_a_token :
  interpolate "{first name} {} {a{b}" [("first name", PStr "x"); ("b", PStr "B")]
  = "{first name} {} {aB".
Proof. reflexivity. Qed.

Example interpolate_no_rescan :
  interpolate "{a}" [("a", PStr "{b}"); ("b", PStr "X")] = "{b}".
Proof. reflexivity. Qed.

Example split_path : JS.split "." "home.title" = ["home"; "title"].
Proof. reflexivity. Qed.

Example split_empty_segment : JS.split "." "a..b" = ["a"; ""; "b"].
Proof. reflexivity. Qed.

Example stringify_empty : JSON.stringify [] = "{}".
Proof. reflexivity. Qed.

Example stringify_count :
  String.length (JSON.stringify [("count", PNum 5); ("n", PStr "a\b")]) = 22.
Proof. reflexivity. Qed.

Example walk_leaf :
  walk navDictionary (JS.split "." "nav.home") = Some (VStr "Home").
Proof. reflexivity. Qed.

Example walk_missing : walk navDictionary (JS.split "." "nav.about") = None.
Proof. reflexivity. Qed.

Example get_leaf : fst (get "nav.home" [] navWorld) = VStr "Home".
Proof. vm_compute. reflexivity. Qed.

Example get_welcome :
  fst (get "welcome" [("name", PStr "Marie")] formWorld) = VStr "Hello Marie!".
Proof. vm_compute. reflexivity. Qed.

(** The element added to the page of the incremental scenario: only its
    text is written. *)
Example translateElement_link :
  fst (translateElement navLink navWorld)
  = Element "A" [("translate", "nav.home")] [] [Text "Home"].
Proof. vm_compute. reflexivity. Qed.

Example detectLanguage_browser : detectLanguage freshWorld = "fr".
Proof. vm_compute. reflexivity. Qed.

(** ** Strings *)

Section Strings.

Lemma append_cons c s t : String c s +:+ t = String c (s +:+ t).
Proof. reflexivity. Qed.

Lemma append_nil_l s : "" +:+ s = s.
Proof. reflexivity. Qed.

Lemma append_assoc (s t u : string) : (s +:+ t) +:+ u = s +:+ (t +:+ u).
Proof. induction s as [|c s IH]; [done|]. by rewrite !append_cons, IH. Qed.


End Strings.

(** ** Interpolation *)

Section Interpolation.







Context (f : string → string → string).





End Interpolation.



(** ** Cache keys

    The text [JSON.stringify] produces never continues a key, and it
    determines the parameters: a cache key has one reading. *)

Section Scanning.

Lemma scan_app s a b : scan s (a +:+ b) = scan s a ≫= fun s' => scan s' b.
Proof.
  revert s. induction a as [|c a IH]; intros s; [done|].
  rewrite append_cons. cbn [scan]. destruct (scanStep s c); [apply IH|done].
Qed.

Lemma scan_escapeChar c : scan Inside (JSON.escapeChar c) = Some Inside.
Proof. destruct c as [[] [] [] [] [] [] [] []]; reflexivity. Qed.

Lemma scan_escape s : scan Inside (JSON.escape s) = Some Inside.
Proof.
  induction s as [|c s IH]; [done|]. cbn [JSON.escape].
  by rewrite scan_app, scan_escapeChar.
Qed.

Lemma scan_quote s : scan Outside (JSON.quote s) = Some Outside.
Proof.
  unfold JSON.quote. cbn [scan scanStep]. rewrite decide_True by done.
  by rewrite scan_app, scan_escape.
Qed.

Lemma scan_numeric s : allNumeric s = true → scan Outside s = Some Outside.
Proof.
  induction s as [|c s IH]; [done|]. cbn [allNumeric scan scanStep].
  intros [Hc Hs]%andb_true_iff.
  destruct (decide (c = "034"%char)) as [->|_]; [done|].
  unfold isStructural. rewrite Hc. by apply IH.
Qed.

Lemma pretty_N_char_numeric x : isNumeric (pretty_N_char x) = true.
Proof. unfold pretty_N_char. by repeat case_match. Qed.

Lemma pretty_N_go_numeric x s :
  allNumeric s = true → allNumeric (pretty_N_go x s) = true.
Proof.
  revert s. induction (N.lt_wf_0 x) as [x _ IH]; intros s Hs.
  assert (x = 0 ∨ 0 < x)%N as [->|?] by lia.
  - by rewrite pretty_N_go_0.
  - rewrite pretty_N_go_step by done. apply IH.
    { by apply N.div_lt. }
    cbn [allNumeric]. by rewrite pretty_N_char_numeric.
Qed.

Lemma pretty_N_numeric (x : N) : allNumeric (pretty x) = true.
Proof.
  unfold pretty, pretty_N. case_decide; [done|]. by apply pretty_N_go_numeric.
Qed.

Lemma pretty_Z_numeric (n : Z) : allNumeric (pretty n) = true.
Proof.
  unfold pretty, pretty_Z. destruct n as [|p|p]; [done|..].
  - apply pretty_N_numeric.
  - rewrite append_cons. cbn [allNumeric]. apply pretty_N_numeric.
Qed.

Lemma scan_value v : scan Outside (JSON.value v) = Some Outside.
Proof.
  destruct v as [s|n]; [apply scan_quote|].
  apply scan_numeric, pretty_Z_numeric.
Qed.

Lemma append_nil_r s : s +:+ "" = s.
Proof. induction s as [|c s IH]; [done|]. by rewrite append_cons, IH. Qed.

Lemma members_cons k v rest :
  JSON.members ((k, v) :: rest)
  = JSON.quote k +:+ ":" +:+ JSON.value v
      +:+ match rest with [] => "" | _ :: _ => "," +:+ JSON.members rest end.
Proof.
  destruct rest as [|[k' v'] rest]; [|done].
  cbn [JSON.members]. by rewrite append_nil_r.
Qed.

Lemma scan_members params : scan Outside (JSON.members params) = Some Outside.
Proof.
  induction params as [|[k v] rest IH]; [done|].
  rewrite members_cons, scan_app, scan_quote. cbn [mbind option_bind].
  rewrite append_cons, append_nil_l. cbn [scan]. 
  change (scanStep Outside ":") with (Some Outside). cbv beta iota.
  rewrite scan_app, scan_value. cbn [mbind option_bind].
  destruct rest; [done|]. rewrite append_cons, append_nil_l. cbn [scan].
  change (scanStep Outside ",") with (Some Outside). done.
Qed.

Lemma scan_stringify params : scan Outside (JSON.stringify params) = Some Outside.
Proof.
  unfold JSON.stringify. rewrite append_cons, append_nil_l. cbn [scan].
  change (scanStep Outside "{") with (Some Outside). cbv beta iota.
  by rewrite scan_app, scan_members.
Qed.

Lemma isStructural_not_quote c :
  isStructural c = true → c ≠ "034"%char ∧ c ≠ "\"%char.
Proof. split; intros ->; discriminate. Qed.

(** Two scans of one text that start on opposite sides of a quote end on
    opposite sides. *)
Lemma scan_opposite text s1 s2 s1' s2' :
  opposite s1 s2 → scan s1 text = Some s1' → scan s2 text = Some s2' →
  opposite s1' s2'.
Proof.
  revert s1 s2. induction text as [|c text IH]; intros s1 s2 Hop; cbn [scan].
  - by intros [= <-] [= <-].
  - destruct (scanStep s1 c) as [t1|] eqn:E1; [|done].
    destruct (scanStep s2 c) as [t2|] eqn:E2; [|done].
    apply IH. destruct Hop as [[-> ->]|[-> ->]]; cbn in E1, E2.
    + destruct (decide (c = "034"%char)); simplify_eq; [by right|].
      destruct (isStructural c) eqn:Hs; simplify_eq.
      apply isStructural_not_quote in Hs as [_ Hb].
      rewrite decide_False in E1 by done. simplify_eq. by left.
    + destruct (decide (c = "034"%char)); simplify_eq; [by left|].
      destruct (isStructural c) eqn:Hs; simplify_eq.
      apply isStructural_not_quote in Hs as [_ Hb].
      rewrite decide_False in E2 by done. simplify_eq. by right.
Qed.

(** The text of a parameter object never continues a key: a cache key
    has one reading. *)
Lemma stringify_not_suffix x p1 p2 :
  JSON.stringify p1 ≠ x +:+ "_" +:+ JSON.stringify p2.
Proof.
  intros Heq. pose proof (scan_stringify p1) as H1.
  pose proof (scan_stringify p2) as H2.
  unfold JSON.stringify in Heq, H1, H2. rewrite Heq in H1.
  rewrite scan_app in H1. destruct (scan Outside x) as [s|] eqn:Ex; [|done].
  cbn [mbind option_bind] in H1. rewrite append_cons, append_nil_l in H1.
  cbn [scan] in H1.
  assert (scanStep s "_" = Some Inside ∨ scanStep s "_" = None) as [E|E]
    by (destruct s; auto).
  - rewrite E in H1.
    destruct (scan_opposite _ _ _ _ _ (or_introl (conj eq_refl eq_refl)) H1 H2)
      as [[? ?]|[? ?]]; done.
  - by rewrite E in H1.
Qed.

Lemma key_separation key1 key2 j1 j2 :
  (∀ x, j1 ≠ x +:+ "_" +:+ j2) → (∀ x, j2 ≠ x +:+ "_" +:+ j1) →
  key1 +:+ "_" +:+ j1 = key2 +:+ "_" +:+ j2 → key1 = key2 ∧ j1 = j2.
Proof.
  intros H12 H21. revert key2.
  induction key1 as [|c key1 IH]; intros [|d key2];
    rewrite ?append_cons, ?append_nil_l.
  - by intros [= ->].
  - intros [= <- H]. by apply H12 in H.
  - intros [= -> H]. symmetry in H. by apply H21 in H.
  - intros [= -> H]. apply IH in H as [-> ->]. done.
Qed.

Lemma cacheKey_key key1 key2 p1 p2 :
  cacheKey key1 p1 = cacheKey key2 p2 →
  key1 = key2 ∧ JSON.stringify p1 = JSON.stringify p2.
Proof.
  apply key_separation; intros x; apply stringify_not_suffix.
Qed.

End Scanning.

Section Reading.

Lemma unescapeChar_escapeChar c rest :
  unescapeChar (JSON.escapeChar c +:+ rest) = Some (c, rest).
Proof. destruct c as [[] [] [] [] [] [] [] []]; reflexivity. Qed.

Lemma escapeChar_split c d x y :
  JSON.escapeChar c +:+ x = JSON.escapeChar d +:+ y → c = d ∧ x = y.
Proof.
  intros H. apply (f_equal unescapeChar) in H.
  rewrite !unescapeChar_escapeChar in H. by injection H.
Qed.

Lemma escapeChar_not_quote c x y :
  JSON.escapeChar c +:+ x ≠ String "034" y.
Proof.
  intros H. pose proof (f_equal unescapeChar H) as Hu.
  rewrite unescapeChar_escapeChar in Hu. cbn in Hu. injection Hu as -> _.
  discriminate H.
Qed.

(** A quoted string ends at its closing quote. *)
Lemma escape_split a b x y :
  JSON.escape a +:+ String "034" x = JSON.escape b +:+ String "034" y →
  a = b ∧ x = y.
Proof.
  revert b. induction a as [|c a IH]; intros [|d b]; cbn [JSON.escape];
    rewrite ?append_nil_l, ?append_assoc.
  - by intros [= ->].
  - intros H. symmetry in H. by apply escapeChar_not_quote in H.
  - intros H. by apply escapeChar_not_quote in H.
  - intros H. apply escapeChar_split in H as [-> H].
    apply IH in H as [-> ->]. done.
Qed.

Lemma quote_split a b x y :
  JSON.quote a +:+ x = JSON.quote b +:+ y → a = b ∧ x = y.
Proof.
  unfold JSON.quote. rewrite !append_cons, !append_assoc, !append_cons, !append_nil_l.
  intros [= H]. by apply escape_split in H.
Qed.

Lemma numeric_split a b x y :
  allNumeric a = true → allNumeric b = true →
  startsWithSeparator x → startsWithSeparator y →
  a +:+ x = b +:+ y → a = b ∧ x = y.
Proof.
  intros Ha Hb (c & x' & -> & Hc & _) (d & y' & -> & Hd & _). revert b Hb.
  induction a as [|e a IH]; intros [|f b] Hb; rewrite ?append_cons, ?append_nil_l.
  - by intros [= -> ->].
  - intros [= -> _]. cbn in Hb. apply andb_true_iff in Hb as [Hf _]. congruence.
  - intros [= -> _]. cbn in Ha. apply andb_true_iff in Ha as [He _]. congruence.
  - intros [= -> H]. cbn in Ha, Hb.
    apply andb_true_iff in Ha as [_ Ha]. apply andb_true_iff in Hb as [_ Hb].
    apply IH in H as [-> H]; done.
Qed.

Lemma numeric_not_quote a x y :
  allNumeric a = true → startsWithSeparator x → a +:+ x ≠ String "034" y.
Proof.
  intros Ha (c & x' & -> & Hc & Hq). destruct a as [|e a].
  - rewrite append_nil_l. by intros [= ->].
  - rewrite append_cons. intros [= -> _]. cbn in Ha. done.
Qed.

Lemma value_split v1 v2 x y :
  startsWithSeparator x → startsWithSeparator y →
  JSON.value v1 +:+ x = JSON.value v2 +:+ y → v1 = v2 ∧ x = y.
Proof.
  intros Hx Hy. destruct v1 as [s1|n1], v2 as [s2|n2]; cbn [JSON.value].
  - intros H. apply quote_split in H as [-> ->]. done.
  - unfold JSON.quote. rewrite append_cons. intros H. symmetry in H.
    by apply numeric_not_quote in H; [|apply pretty_Z_numeric|].
  - unfold JSON.quote. rewrite append_cons. intros H.
    by apply numeric_not_quote in H; [|apply pretty_Z_numeric|].
  - intros H. apply numeric_split in H as [H ->]; auto using pretty_Z_numeric.
    by apply (inj pretty) in H as ->.
Qed.

Lemma members_split p1 p2 x y :
  JSON.members p1 +:+ String "}" x = JSON.members p2 +:+ String "}" y →
  p1 = p2 ∧ x = y.
Proof.
  revert p2. induction p1 as [|[k1 v1] r1 IH]; intros [|[k2 v2] r2];
    rewrite ?members_cons.
  - rewrite !append_nil_l. by intros [= ->].
  - rewrite append_nil_l. unfold JSON.quote. rewrite !append_cons. done.
  - rewrite append_nil_l. unfold JSON.quote. rewrite !append_cons. done.
  - rewrite !append_assoc. intros H. apply quote_split in H as [-> H].
    rewrite !append_cons, !append_nil_l in H. injection H as H.
    apply value_split in H as [-> H].
    + destruct r1 as [|e1 r1], r2 as [|e2 r2];
        rewrite ?append_nil_l, ?append_cons in H.
      * by injection H as ->.
      * done.
      * done.
      * injection H as H.
        destruct (IH (e2 :: r2) H) as [-> ->]. done.
    + destruct r1; [by eexists _, _|]. rewrite append_cons. by eexists _, _.
    + destruct r2; [by eexists _, _|]. rewrite append_cons. by eexists _, _.
Qed.

Lemma stringify_inj p1 p2 : JSON.stringify p1 = JSON.stringify p2 → p1 = p2.
Proof.
  unfold JSON.stringify. rewrite !append_cons, !append_nil_l.
  intros [= H]. by apply members_split in H as [-> _].
Qed.

(** A cache key determines the key and the parameters of the call. *)
Lemma cacheKey_inj key1 key2 p1 p2 :
  cacheKey key1 p1 = cacheKey key2 p2 → key1 = key2 ∧ p1 = p2.
Proof.
  intros H. apply cacheKey_key in H as [-> H]. by apply stringify_inj in H.
Qed.

End Reading.

(** ** Logging leaves the instance alone *)

Section Logging.

Context (message type : string) (w : World).

Lemma log_this : this (log message type w) = this w.
Proof. unfold log. by destruct (debug _). Qed.

Lemma log_host :
  host (log message type w)
  = if debug (config (this w))
    then setConsole (console (host w) ++ [(type, "[LangJS] " +:+ message)]) (host w)
    else host w.
Proof. unfold log. by destruct (debug _). Qed.

Lemma log_resolutions : resolutions (host (log message type w)) = resolutions (host w).
Proof. rewrite log_host. by destruct (debug _). Qed.

Lemma log_requests : requests (host (log message type w)) = requests (host w).
Proof. rewrite log_host. by destruct (debug _). Qed.

Lemma log_server : server (host (log message type w)) = server (host w).
Proof. rewrite log_host. by destruct (debug _). Qed.

Lemma log_document : document (host (log message type w)) = document (host w).
Proof. rewrite log_host. by destruct (debug _). Qed.

Lemma log_localStorage :
  localStorage (host (log message type w)) = localStorage (host w).
Proof. rewrite log_host. by destruct (debug _). Qed.

Lemma log_arrays : arrays (host (log message type w)) = arrays (host w).
Proof. rewrite log_host. by destruct (debug _). Qed.

Lemma log_availableList : availableList (log message type w) = availableList w.
Proof. unfold availableList. by rewrite log_arrays, log_this. Qed.

End Logging.

(** ** Resolution and the cache *)

Section Get.

Context (key : string) (params : ParamMap) (w : World).

Lemma get_hit v :
  translationCache (this w) !! cacheKey key params = Some v →
  get key params w = (v, w).
Proof. intros H. unfold get. by rewrite H. Qed.

Lemma get_miss :
  translationCache (this w) !! cacheKey key params = None →
  fst (get key params w) = resolve (languageDict (this w)) key params
  ∧ translationCache (this (snd (get key params w)))
    = <[cacheKey key params := resolve (languageDict (this w)) key params]>
        (translationCache (this w))
  ∧ resolutions (host (snd (get key params w))) = S (resolutions (host w)).
Proof.
  intros H. unfold get, resolve. rewrite H. cbn.
  destruct (walk (languageDict (this w)) (JS.split "." key)); cbn.
  - auto.
  - rewrite log_this, log_resolutions. auto.
Qed.

(** [get] changes nothing of the instance but its cache. *)
Lemma get_this :
  this (snd (get key params w))
  = setTranslationCache (translationCache (this (snd (get key params w)))) (this w).
Proof.
  unfold get. destruct (_ !! _); cbn; [by destruct w as [[] ?]|].
  destruct (walk _ _); cbn; [done|]. by rewrite !log_this.
Qed.

Lemma get_languageDict :
  languageDict (this (snd (get key params w))) = languageDict (this w).
Proof. by rewrite get_this. Qed.

(** After a call the result is in the cache under the key of the call. *)
Lemma get_cached :
  translationCache (this (snd (get key params w))) !! cacheKey key params
  = Some (fst (get key params w)).
Proof.
  destruct (translationCache (this w) !! cacheKey key params) as [v|] eqn:E.
  - by rewrite (get_hit _ E).
  - destruct (get_miss E) as (-> & -> & _). apply lookup_insert_eq.
Qed.

(** An entry of the cache is never overwritten by [get]. *)
Lemma get_keeps_entries ck v :
  translationCache (this w) !! ck = Some v →
  translationCache (this (snd (get key params w))) !! ck = Some v.
Proof.
  intros H.
  destruct (translationCache (this w) !! cacheKey key params) as [v'|] eqn:E.
  - by rewrite (get_hit _ E).
  - destruct (get_miss E) as (_ & -> & _).
    rewrite lookup_insert_ne; [done|]. intros <-. congruence.
Qed.

Lemma get_cacheValid : cacheValid w → cacheValid (snd (get key params w)).
Proof.
  intros Hv ck v. rewrite get_languageDict.
  destruct (translationCache (this w) !! cacheKey key params) as [v'|] eqn:E.
  - rewrite (get_hit _ E). apply Hv.
  - destruct (get_miss E) as (_ & -> & _).
    rewrite lookup_insert. case_decide as Hck.
    + intros [= <-]. eauto.
    + apply Hv.
Qed.

(** In a valid cache the entry of a call is what the call computes. *)
Lemma cacheValid_lookup v :
  cacheValid w →
  translationCache (this w) !! cacheKey key params = Some v →
  v = resolve (languageDict (this w)) key params.
Proof.
  intros Hv H. destruct (Hv _ _ H) as (k & p & Hk & ->).
  by apply cacheKey_inj in Hk as [-> ->].
Qed.

(** From a valid cache [get] returns what the walk of the current
    dictionary gives, cached or not. *)
Lemma get_resolve :
  cacheValid w → fst (get key params w) = resolve (languageDict (this w)) key params.
Proof.
  intros Hv.
  destruct (translationCache (this w) !! cacheKey key params) as [v'|] eqn:E.
  - rewrite (get_hit _ E). cbn. by apply cacheValid_lookup.
  - by destruct (get_miss E) as (-> & _).
Qed.

(** A key whose walk breaks off: the key comes back, through the same
    parameter replacement as a translation. *)
Lemma get_missing_key :
  cacheValid w →
  walk (languageDict (this w)) (JS.split "." key) = None →
  fst (get key params w)
  = VStr (if bool_decide (0 < length params) then interpolate key params else key).
Proof.
  intros Hv Hw. rewrite get_resolve by done.
  unfold resolve. rewrite Hw. cbn. by destruct (bool_decide _).
Qed.

End Get.

Section Gets.

Lemma gets_cons key params calls w :
  gets ((key, params) :: calls) w = gets calls (snd (get key params w)).
Proof. reflexivity. Qed.

Lemma gets_app calls1 calls2 w :
  gets (calls1 ++ calls2) w = gets calls2 (gets calls1 w).
Proof. unfold gets. apply foldl_app. Qed.

Lemma gets_this calls w :
  this (gets calls w)
  = setTranslationCache (translationCache (this (gets calls w))) (this w).
Proof.
  revert w. induction calls as [|[k p] calls IH]; intros w.
  - by destruct w as [[] ?].
  - rewrite gets_cons, IH, get_this. done.
Qed.


Lemma gets_config calls w : config (this (gets calls w)) = config (this w).
Proof. by rewrite gets_this. Qed.

Lemma gets_cacheValid calls w : cacheValid w → cacheValid (gets calls w).
Proof.
  revert w. induction calls as [|[k p] calls IH]; intros w Hv; [done|].
  rewrite gets_cons. apply IH. by apply get_cacheValid.
Qed.

Lemma gets_keeps_entries calls w ck v :
  translationCache (this w) !! ck = Some v →
  translationCache (this (gets calls w)) !! ck = Some v.
Proof.
  revert w. induction calls as [|[k p] calls IH]; intros w H; [done|].
  rewrite gets_cons. apply IH. by apply get_keeps_entries.
Qed.

(** The result of a call stays the answer to the same call, whatever
    other keys are resolved in between. *)
Lemma get_stable key params calls w :
  get key params (gets calls (snd (get key params w)))
  = (fst (get key params w), gets calls (snd (get key params w))).
Proof. apply get_hit, gets_keeps_entries, get_cached. Qed.

Lemma cacheValid_this w w' : this w' = this w → cacheValid w → cacheValid w'.
Proof. unfold cacheValid. by intros ->. Qed.

End Gets.





(** C6.  For a key that is absent from the dictionary and carries a
    placeholder, [get] with parameters does not return the key unchanged:
    the fallback goes through the parameter replacement. *)
Theorem get_missing_key_interpolated :
  walk (languageDict (this navWorld)) (JS.split "." "greeting.{name}") = None
  ∧ fst (get "greeting.{name}" [("name", PStr "John")] navWorld)
    = VStr "greeting.John"
  ∧ fst (get "greeting.{name}" [] navWorld) = VStr "greeting.{name}".
Proof. repeat split; vm_compute; reflexivity. Qed.

(** ** The translation passes as sequences of [get] calls *)

Section Passes.

(** A [forEach] loop of a pass changes the world as a sequence of
    [get] calls does. *)
Lemma translateEach_gets attr write els root w :
  ∃ calls, snd (translateEach attr write els root w) = gets calls w.
Proof.
  unfold translateEach. revert root w.
  induction els as [|[p el] els IH]; intros root w.
  - by exists [].
  - cbn [foldl]. destruct (Dom.getAttribute attr el) as [key|].
    + destruct (decide (key = "")); [apply IH|].
      destruct (get key [] w) as [translation w1] eqn:E.
      destruct (IH (Dom.updateAt p (write el (toDOMString translation)) root) w1)
        as [calls ->].
      exists ((key, []) :: calls). by rewrite gets_cons, E.
    + apply IH.
Qed.

Lemma contentPasses_gets attrs doc w :
  ∃ calls,
    snd (foldl
           (fun '(doc, w) attr =>
              translateEach attr writeContent
                (Dom.documentQuerySelectorAll attr doc) doc w)
           (doc, w) attrs) = gets calls w.
Proof.
  revert doc w. induction attrs as [|attr attrs IH]; intros doc w.
  - by exists [].
  - cbn [foldl].
    destruct (translateEach_gets attr writeContent
                (Dom.documentQuerySelectorAll attr doc) doc w) as [c1 H1].
    destruct (translateEach attr writeContent _ doc w) as [doc1 w1].
    cbn in H1. subst w1.
    destruct (IH doc1 (gets c1 w)) as [c2 ->].
    exists (c1 ++ c2). by rewrite gets_app.
Qed.

(** The full pass: some [get] calls, then the document is replaced. *)
Lemma translatePage_gets w :
  ∃ calls doc, translatePage w = withHost (setDocument doc) (gets calls w).
Proof.
  unfold translatePage.
  destruct (contentPasses_gets (attributes (config (this w))) (document (host w)) w)
    as [c0 H0].
  destruct (foldl _ _ _) as [doc0 w0]. cbn in H0. subst w0.
  set (cfg := config (this w)).
  destruct (translateEach_gets (placeholderAttribute cfg)
              (fun _ => Dom.setProperty "placeholder")
              (Dom.documentQuerySelectorAll (placeholderAttribute cfg) doc0)
              doc0 (gets c0 w)) as [c1 H1].
  destruct (translateEach (placeholderAttribute cfg) _ _ _ _) as [doc1 w1].
  cbn in H1. subst w1.
  destruct (translateEach_gets (titleAttribute cfg)
              (fun _ => Dom.setProperty "title")
              (Dom.documentQuerySelectorAll (titleAttribute cfg) doc1)
              doc1 (gets c1 (gets c0 w))) as [c2 H2].
  destruct (translateEach (titleAttribute cfg) _ _ _ _) as [doc2 w2].
  cbn in H2. subst w2.
  destruct (translateEach_gets "translate-aria"
              (fun _ => Dom.setAttribute "aria-label")
              (Dom.documentQuerySelectorAll "translate-aria" doc2)
              doc2 (gets c2 (gets c1 (gets c0 w)))) as [c3 H3].
  destruct (translateEach "translate-aria" _ _ _ _) as [doc3 w3].
  cbn in H3. subst w3.
  exists (c0 ++ c1 ++ c2 ++ c3), doc3. by rewrite !gets_app.
Qed.

End Passes.

(** C2.  The incremental pass does not write what the full pass writes.
    On a page with an input that carries the placeholder marker and an
    input that carries a content marker, the full pass sets the
    [placeholder] of the first and the [value] of the second;
    [translateElement], run on the same tree or on each input alone,
    leaves the first as it is and gives the second a text child. *)
Theorem translateElement_differs_from_translatePage :
  document (host (translatePage formWorld))
  = page [Element "INPUT" [("type", "text"); ("translate-placeholder", "form.name")]
            [("placeholder", "Name")] [];
          Element "INPUT" [("translate", "form.name")] [("value", "Name")] []]
  ∧ fst (translateElement (document (host formWorld)) formWorld)
    = page [placeholderInput;
            Element "INPUT" [("translate", "form.name")] [] [Text "Name"]]
  ∧ fst (translateElement placeholderInput formWorld) = placeholderInput
  ∧ fst (translateElement contentInput formWorld)
    = Element "INPUT" [("translate", "form.name")] [] [Text "Name"].
Proof. repeat split; vm_compute; reflexivity. Qed.

(** ** Activation *)

Section Activation.

Lemma loadLanguageFile_this lang w : this (snd (loadLanguageFile lang w)) = this w.
Proof.
  unfold loadLanguageFile. destruct (server _ _ _) as [|[] ? ? ?]; done.
Qed.

Lemma loadLanguageFile_host lang w :
  host (snd (loadLanguageFile lang w))
  = setRequests (requests (host w) ++ [languageUrl lang w]) (host w).
Proof.
  unfold loadLanguageFile. destruct (server _ _ _) as [|[] ? ? ?]; done.
Qed.

Lemma loadLanguageFile_log lang m t w :
  fst (loadLanguageFile lang (log m t w)) = fst (loadLanguageFile lang w).
Proof.
  unfold loadLanguageFile. rewrite log_server, log_requests, log_this.
  destruct (server _ _ _) as [|[] ? ? ?]; done.
Qed.

Lemma saveLanguage_this lang w : this (saveLanguage lang w) = this w.
Proof. unfold saveLanguage. destruct (localStorage _); [done|apply log_this]. Qed.

(** [setLanguage], one level of calls unfolded. *)
Lemma setLanguage_unfold fuel lang w :
  setLanguage (S fuel) lang w =
  let cfg := config (this w) in
  let lang' := requested lang w in
  match loadLanguageFile lang' (announced lang w) with
  | (inl langData, w1) =>
      let w2 := applyLanguage lang' langData w1 in
      match
        match onLanguageChange cfg with
        | Some callback => callback lang'
        | None => None
        end
      with
      | Some message => recover fuel cfg lang' message w2
      | None => Some (true, log ("Language set to: " +:+ lang') "log" w2)
      end
  | (inr message, w1) => recover fuel cfg lang' message w1
  end.
Proof.
  unfold requested, announced. cbn [setLanguage].
  destruct (JS.includes (availableList w) lang); reflexivity.
Qed.

Lemma applyLanguage_this lang data w :
  ∃ cache,
    this (applyLanguage lang data w)
    = setTranslationCache cache
        (setCurrentLanguage (Some lang) (setLanguageDict data (this w))).
Proof.
  unfold applyLanguage. cbn zeta.
  set (w1 := saveLanguage lang _).
  destruct (translatePage_gets w1) as (calls & doc & ->). cbn.
  rewrite gets_this. unfold w1. rewrite saveLanguage_this. cbn. eauto.
Qed.

Lemma applyLanguage_config lang data w :
  config (this (applyLanguage lang data w)) = config (this w).
Proof. by destruct (applyLanguage_this lang data w) as [cache ->]. Qed.

(** After the [try] block the cache holds only what the pass resolved
    under the dictionary just loaded. *)
Lemma applyLanguage_cacheValid lang data w : cacheValid (applyLanguage lang data w).
Proof.
  unfold applyLanguage. cbn zeta.
  set (w1 := saveLanguage lang _).
  assert (translationCache (this w1) = ∅) as Hw1.
  { unfold w1. by rewrite saveLanguage_this. }
  destruct (translatePage_gets w1) as (calls & doc & ->).
  apply (cacheValid_this (gets calls w1)); [done|].
  apply gets_cacheValid. intros ck v. by rewrite Hw1, lookup_empty.
Qed.

Lemma announced_this lang w : this (announced lang w) = this w.
Proof. unfold announced. destruct (JS.includes _ _); [done|apply log_this]. Qed.

Lemma recover_fallback fuel cfg message w :
  recover fuel cfg (fallbackLanguage cfg) message w
  = Some (false,
          log ("Failed to load language " +:+ dquote +:+ fallbackLanguage cfg
               +:+ dquote +:+ ": " +:+ message) "error" w).
Proof. unfold recover. destruct (decide _) as [Hne|_]; [by destruct Hne|done]. Qed.




(** Whatever its result, [setLanguage] keeps the cache valid. *)
Lemma setLanguage_cacheValid fuel lang w ok w' :
  cacheValid w → setLanguage fuel lang w = Some (ok, w') → cacheValid w'.
Proof.
  revert lang w. induction fuel as [|fuel IH]; intros lang w Hv; [done|].
  rewrite setLanguage_unfold. cbn zeta. unfold recover.
  pose proof (loadLanguageFile_this (requested lang w) (announced lang w)) as Ht.
  rewrite announced_this in Ht.
  destruct (loadLanguageFile _ _) as [[data|message] w1]; cbn [snd] in Ht.
  - destruct (match onLanguageChange _ with Some _ => _ | None => _ end) as [m|].
    + destruct (decide _).
      * apply IH. eapply cacheValid_this; [apply log_this|].
        apply applyLanguage_cacheValid.
      * intros [= <- <-]. eapply cacheValid_this; [apply log_this|].
        apply applyLanguage_cacheValid.
    + intros [= <- <-]. eapply cacheValid_this; [apply log_this|].
      apply applyLanguage_cacheValid.
  - destruct (decide _).
    + apply IH. eapply cacheValid_this; [|exact Hv]. by rewrite log_this.
    + intros [= <- <-]. eapply cacheValid_this; [|exact Hv]. by rewrite log_this.
Qed.

End Activation.

(** C3.  Activating a language that is not available, when the load of
    the fallback language fails: [setLanguage] returns [false] whatever
    the depth allowed for its calls, exactly one request was made, for the
    file of the fallback language, and the current language, the
    dictionary and the cache (as well as the document and the stored
    preference) are what they were. *)
Theorem setLanguage_unavailable_failing_fallback
    (fuel : nat) (lang message : string) (w : World) :
  isLanguageAvailable lang w = false →
  fst (loadLanguageFile (fallbackLanguage (config (this w))) w) = inr message →
  ∃ w', setLanguage (S fuel) lang w = Some (false, w')
    ∧ requests (host w')
      = requests (host w)
        ++ [languagePath (config (this w)) +:+ fallbackLanguage (config (this w))
            +:+ ".json"]
    ∧ currentLanguage (this w') = currentLanguage (this w)
    ∧ languageDict (this w') = languageDict (this w)
    ∧ translationCache (this w') = translationCache (this w)
    ∧ document (host w') = document (host w)
    ∧ localStorage (host w') = localStorage (host w).
Proof.
  unfold isLanguageAvailable. intros Hav Hload.
  rewrite setLanguage_unfold. cbn zeta.
  unfold requested, announced. rewrite Hav.
  set (w0 := log _ "warn" w).
  assert (fst (loadLanguageFile (fallbackLanguage (config (this w))) w0) = inr message)
    as Hload0 by (unfold w0; by rewrite loadLanguageFile_log).
  pose proof (loadLanguageFile_this (fallbackLanguage (config (this w))) w0) as Ht.
  pose proof (loadLanguageFile_host (fallbackLanguage (config (this w))) w0) as Hh.
  destruct (loadLanguageFile _ w0) as [r w1]. cbn in Hload0, Ht, Hh. subst r.
  rewrite recover_fallback. eexists. split; [done|].
  rewrite !log_this, log_requests, log_document, log_localStorage, Ht, Hh.
  cbn. unfold w0, languageUrl.
  by rewrite !log_this, log_requests, log_document, log_localStorage.
Qed.

Lemma setLanguage_unavailable_failing_fallback_witness :
  ∃ w', setLanguage 1 "de" offlineWorld = Some (false, w')
        ∧ requests (host w') = ["./lang/en.json"]
        ∧ currentLanguage (this w') = None.
Proof.
  destruct (setLanguage_unavailable_failing_fallback 0 "de" "Failed to fetch" offlineWorld)
    as (w' & Hrun & Hreq & Hcur & _).
  - vm_compute. reflexivity.
  - vm_compute. reflexivity.
  - exists w'. split; [exact Hrun|]. split; [exact Hreq|exact Hcur].
Defined.



(** After the activation of English the key resolved under French gives
    the English text. *)
Example get_after_activation :
  (fun '(ok, w') => (ok, fst (get "nav.home" [] w'))) <$> setLanguage 2 "en" frenchWorld
  = Some (true, VStr "Home").
Proof. vm_compute. reflexivity. Qed.

(** ** Selection of the initial language *)

Section Selection.





End Selection.




(** ** Clean-up *)

Section Destroy.

Lemma disconnect_all (os : list nat) (s : gset nat) (o : nat) :
  o ∈ foldl (fun s x => s ∖ {[x]}) s os ↔ o ∈ s ∧ o ∉ os.
Proof.
  revert s. induction os as [|x os IH]; intros s; cbn.
  - rewrite elem_of_nil. tauto.
  - rewrite IH, elem_of_difference, elem_of_singleton, not_elem_of_cons. tauto.
Qed.

Lemma destroy_this w :
  this (destroy w) = setTranslationCache ∅ (setObservers [] (this w)).
Proof. unfold destroy. by rewrite log_this. Qed.

Lemma destroy_observing w :
  observing (host (destroy w))
  = foldl (fun s x => s ∖ {[x]}) (observing (host w)) (observers (this w)).
Proof. unfold destroy. rewrite log_host. by destruct (debug _). Qed.

End Destroy.

(** C9.  [destroy] disconnects every observer the instance registered
    (and no other), empties the list of observers and the cache, and
    leaves the current language and the dictionary as they were: after
    it, [get] resolves every key against that dictionary. *)
Theorem destroy_frame (w : World) :
  let w' := destroy w in
  (∀ o, o ∈ observers (this w) → o ∉ observing (host w'))
  ∧ (∀ o, o ∉ observers (this w) → o ∈ observing (host w') ↔ o ∈ observing (host w))
  ∧ observers (this w') = []
  ∧ translationCache (this w') = ∅
  ∧ currentLanguage (this w') = currentLanguage (this w)
  ∧ languageDict (this w') = languageDict (this w)
  ∧ ∀ key params,
      fst (get key params w') = resolve (languageDict (this w)) key params.
Proof.
  cbn zeta. rewrite destroy_observing, destroy_this.
  split; [|split]; [| |repeat split].
  - intros o Ho. rewrite disconnect_all. tauto.
  - intros o Ho. rewrite disconnect_all. tauto.
  - intros key params.
    destruct (get_miss key params (destroy w)) as (-> & _).
    + rewrite destroy_this. apply lookup_empty.
    + by rewrite destroy_this.
Qed.

Lemma destroy_frame_witness :
  ∃ o, o ∈ observers (this (observeDOMChanges frenchWorld))
       ∧ o ∈ observing (host (observeDOMChanges frenchWorld))
       ∧ (o ∉ observing (host (destroy (observeDOMChanges frenchWorld))))
       ∧ fst (get "nav.home" [] (destroy (observeDOMChanges frenchWorld)))
         = VStr "Accueil".
Proof.
  exists (fresh (observing (host frenchWorld)
                 ∪ list_to_set (observers (this frenchWorld)) : gset nat)).
  assert (fresh (observing (host frenchWorld)
                 ∪ list_to_set (observers (this frenchWorld)) : gset nat)
          ∈ observers (this (observeDOMChanges frenchWorld))) as Hin.
  { apply elem_of_app. right. apply list_elem_of_singleton. reflexivity. }
  split; [exact Hin|]. split; [|split].
  - apply elem_of_union_l, elem_of_singleton. reflexivity.
  - exact (proj1 (destroy_frame (observeDOMChanges frenchWorld)) _ Hin).
  - rewrite (proj2 (proj2 (proj2 (proj2 (proj2 (proj2
               (destroy_frame (observeDOMChanges frenchWorld)))))))).
    vm_compute. reflexivity.
Defined.

(** ** The cache in every reachable world *)

Section Reachable.

Lemma selfPass_gets attrs element w :
  ∃ calls,
    snd (foldl
           (fun '(element, w) attr =>
              if Dom.hasAttribute attr element then
                match Dom.getAttribute attr element with
                | Some key =>
                    if decide (key = "") then (element, w)
                    else let '(translation, w) := get key [] w in
                         (Dom.setTextContent (toDOMString translation) element, w)
                | None => (element, w)
                end
              else (element, w))
           (element, w) attrs) = gets calls w.
Proof.
  revert element w. induction attrs as [|attr attrs IH]; intros element w.
  - by exists [].
  - cbn [foldl]. destruct (Dom.hasAttribute attr element); [|apply IH].
    destruct (Dom.getAttribute attr element) as [key|]; [|apply IH].
    destruct (decide (key = "")); [apply IH|].
    destruct (get key [] w) as [translation w1] eqn:E.
    destruct (IH (Dom.setTextContent (toDOMString translation) element) w1)
      as [calls ->].
    exists ((key, []) :: calls). by rewrite gets_cons, E.
Qed.

Lemma childPasses_gets attrs element w :
  ∃ calls,
    snd (foldl
           (fun '(element, w) attr =>
              translateEach attr (fun _ => Dom.setTextContent)
                (Dom.querySelectorAll attr element) element w)
           (element, w) attrs) = gets calls w.
Proof.
  revert element w. induction attrs as [|attr attrs IH]; intros element w.
  - by exists [].
  - cbn [foldl].
    destruct (translateEach_gets attr (fun _ => Dom.setTextContent)
                (Dom.querySelectorAll attr element) element w) as [c1 H1].
    destruct (translateEach attr _ _ element w) as [e1 w1].
    cbn in H1. subst w1.
    destruct (IH e1 (gets c1 w)) as [c2 ->].
    exists (c1 ++ c2). by rewrite gets_app.
Qed.

Lemma translateElement_gets element w :
  ∃ calls, snd (translateElement element w) = gets calls w.
Proof.
  unfold translateElement.
  destruct (selfPass_gets (attributes (config (this w))) element w) as [c0 H0].
  destruct (foldl _ _ _) as [e0 w0]. cbn in H0. subst w0.
  destruct e0 as [data|tag attrs props kids]; [by exists c0|].
  assert (config (this w) = config (this (gets c0 w))) as Hc by (by rewrite gets_config).
  destruct (childPasses_gets (attributes (config (this w)))
              (Element tag attrs props kids) (gets c0 w)) as [c1 ->].
  exists (c0 ++ c1). by rewrite gets_app.
Qed.

(** Every call keeps the cache valid for the dictionary of the
    instance. *)
Lemma step_cacheValid w w' : step w w' → cacheValid w → cacheValid w'.
Proof.
  intros Hstep. destruct Hstep as
    [key params w|fuel lang w ok w' Hrun|w|element w|w|w|w|ref l w]; intros Hv.
  - exact (get_cacheValid _ _ _ Hv).
  - by apply (setLanguage_cacheValid _ _ _ _ _ Hv Hrun).
  - destruct (translatePage_gets w) as (calls & doc & ->).
    apply (cacheValid_this (gets calls w)); [done|].
    exact (gets_cacheValid _ _ Hv).
  - destruct (translateElement_gets element w) as [calls ->].
    exact (gets_cacheValid _ _ Hv).
  - exact (cacheValid_this w _ eq_refl Hv).
  - intros ck v. rewrite destroy_this. cbn. by rewrite lookup_empty.
  - exact (cacheValid_this w _ eq_refl Hv).
  - exact (cacheValid_this w _ eq_refl Hv).
Qed.

Lemma newInstance_cacheValid cfg available h :
  cacheValid {| this := newInstance cfg available; host := h |}.
Proof. intros ck v. cbn. by rewrite lookup_empty. Qed.

(** In every world that calls lead to from a new instance the cache is
    valid. *)
Lemma reachable_cacheValid cfg available h w :
  rtc step {| this := newInstance cfg available; host := h |} w → cacheValid w.
Proof.
  revert w. apply rtc_ind_r.
  - apply newInstance_cacheValid.
  - intros w1 w2 _ Hs IH. exact (step_cacheValid _ _ Hs IH).
Qed.
(** In every such world [get] returns what the walk of the current
    dictionary gives. *)
Lemma reachable_get cfg available h w key params :
  rtc step {| this := newInstance cfg available; host := h |} w →
  fst (get key params w) = resolve (languageDict (this w)) key params.
Proof. intros Hr. apply get_resolve. by apply reachable_cacheValid in Hr. Qed.

End Reachable.

(** ** The array of available languages *)

Section Arrays.

Context (ref : nat) (l : list string).

Lemma mutateArray_lookup w (r : nat) :
  r ≠ ref → arrays (host (mutateArray ref l w)) !! r = arrays (host w) !! r.
Proof. intros Hne. cbn. by rewrite lookup_insert_ne. Qed.

Lemma mutateArray_availableList w :
  ref ≠ availableLanguages (this w) →
  availableList (mutateArray ref l w) = availableList w.
Proof. intros Hne. unfold availableList. by rewrite mutateArray_lookup. Qed.

Lemma detectLanguage_mutateArray w :
  ref ≠ availableLanguages (this w) →
  detectLanguage (mutateArray ref l w) = detectLanguage w.
Proof.
  intros Hne. unfold detectLanguage. by rewrite mutateArray_availableList.
Qed.

(** Writing to an array commutes with every step of an activation. *)
Lemma log_store m t w :
  log m t (mutateArray ref l w) = mutateArray ref l (log m t w).
Proof. unfold log. cbn. by destruct (debug _). Qed.

Lemma get_store key params w :
  get key params (mutateArray ref l w)
  = (fst (get key params w), mutateArray ref l (snd (get key params w))).
Proof.
  unfold get, log. cbn.
  destruct (translationCache (this w) !! cacheKey key params); [done|].
  destruct (walk _ _); cbn; [done|]. by destruct (debug _).
Qed.

Lemma translateEach_store attr write els root w :
  translateEach attr write els root (mutateArray ref l w)
  = (fst (translateEach attr write els root w),
     mutateArray ref l (snd (translateEach attr write els root w))).
Proof.
  unfold translateEach. revert root w.
  induction els as [|[p el] els IH]; intros root w; [done|].
  cbn [foldl]. destruct (Dom.getAttribute attr el) as [key|]; [|apply IH].
  destruct (decide (key = "")); [apply IH|].
  rewrite get_store. destruct (get key [] w) as [translation w1]. apply IH.
Qed.

Lemma contentPasses_store attrs doc w :
  foldl (fun '(doc, w) attr =>
           translateEach attr writeContent
             (Dom.documentQuerySelectorAll attr doc) doc w)
    (doc, mutateArray ref l w) attrs
  = (fst (foldl (fun '(doc, w) attr =>
                   translateEach attr writeContent
                     (Dom.documentQuerySelectorAll attr doc) doc w)
            (doc, w) attrs),
     mutateArray ref l (snd (foldl (fun '(doc, w) attr =>
                          translateEach attr writeContent
                            (Dom.documentQuerySelectorAll attr doc) doc w)
                   (doc, w) attrs))).
Proof.
  revert doc w. induction attrs as [|attr attrs IH]; intros doc w; [done|].
  cbn [foldl]. rewrite translateEach_store.
  destruct (translateEach attr writeContent _ doc w) as [doc1 w1]. apply IH.
Qed.

Lemma translatePage_store w :
  translatePage (mutateArray ref l w) = mutateArray ref l (translatePage w).
Proof.
  unfold translatePage.
  change (config (this (mutateArray ref l w))) with (config (this w)).
  change (document (host (mutateArray ref l w))) with (document (host w)).
  set (cfg := config (this w)).
  rewrite contentPasses_store.
  destruct (foldl _ _ _) as [doc0 w0]. cbn [fst snd].
  rewrite translateEach_store.
  destruct (translateEach (placeholderAttribute cfg) _ _ doc0 w0) as [doc1 w1].
  cbn [fst snd]. rewrite translateEach_store.
  destruct (translateEach (titleAttribute cfg) _ _ doc1 w1) as [doc2 w2].
  cbn [fst snd]. rewrite translateEach_store.
  destruct (translateEach "translate-aria" _ _ doc2 w2) as [doc3 w3].
  done.
Qed.

Lemma saveLanguage_store lang w :
  saveLanguage lang (mutateArray ref l w) = mutateArray ref l (saveLanguage lang w).
Proof.
  unfold saveLanguage. cbn. destruct (localStorage (host w)); [done|].
  apply log_store.
Qed.

Lemma loadLanguageFile_store lang w :
  loadLanguageFile lang (mutateArray ref l w)
  = (fst (loadLanguageFile lang w), mutateArray ref l (snd (loadLanguageFile lang w))).
Proof.
  unfold loadLanguageFile. cbn. destruct (server _ _ _) as [|[] ? ? ?]; done.
Qed.

Lemma applyLanguage_store lang data w :
  applyLanguage lang data (mutateArray ref l w)
  = mutateArray ref l (applyLanguage lang data w).
Proof.
  unfold applyLanguage. cbn zeta.
  change (withThis (setTranslationCache ∅)
            (withThis (setCurrentLanguage (Some lang))
               (withThis (setLanguageDict data) (mutateArray ref l w))))
    with (mutateArray ref l (withThis (setTranslationCache ∅)
            (withThis (setCurrentLanguage (Some lang))
               (withThis (setLanguageDict data) w)))).
  by rewrite saveLanguage_store, translatePage_store.
Qed.

Lemma applyLanguage_availableLanguages lang data w :
  availableLanguages (this (applyLanguage lang data w)) = availableLanguages (this w).
Proof. by destruct (applyLanguage_this lang data w) as [cache ->]. Qed.

(** A write to an array other than the instance's own commutes with
    activation. *)
Lemma setLanguage_store fuel lang w :
  ref ≠ availableLanguages (this w) →
  setLanguage fuel lang (mutateArray ref l w)
  = (fun '(ok, w') => (ok, mutateArray ref l w')) <$> setLanguage fuel lang w.
Proof.
  revert lang w. induction fuel as [|fuel IH]; intros lang w Hne; [done|].
  rewrite !setLanguage_unfold. cbn zeta.
  change (config (this (mutateArray ref l w))) with (config (this w)).
  assert (requested lang (mutateArray ref l w) = requested lang w) as ->.
  { unfold requested. by rewrite mutateArray_availableList. }
  assert (announced lang (mutateArray ref l w) = mutateArray ref l (announced lang w)) as ->.
  { unfold announced. rewrite mutateArray_availableList by done.
    destruct (JS.includes _ _); [done|apply log_store]. }
  rewrite loadLanguageFile_store.
  pose proof (loadLanguageFile_this (requested lang w) (announced lang w)) as Ht.
  rewrite announced_this in Ht.
  destruct (loadLanguageFile _ (announced lang w)) as [[data|message] w1];
    cbn [fst snd] in *.
  - rewrite applyLanguage_store.
    destruct (match onLanguageChange _ with Some _ => _ | None => _ end) as [m|].
    + unfold recover. rewrite log_store. destruct (decide _); [|done].
      apply IH. by rewrite log_this, applyLanguage_availableLanguages, Ht.
    + by rewrite log_store.
  - unfold recover. rewrite log_store. destruct (decide _); [|done].
    apply IH. by rewrite log_this, Ht.
Qed.

Lemma outcome_store r :
  outcome ((fun '(ok, w') => (ok, mutateArray ref l w')) <$> r) = outcome r.
Proof. by destruct r as [[ok w']|]. Qed.

End Arrays.

(** C10.  [getAvailableLanguages] returns a reference to a new array that
    holds the available languages; it is not the instance's own array.
    Whatever the caller then writes to the returned array, the instance's
    array holds what it held, and [isLanguageAvailable], [detectLanguage]
    and [setLanguage] answer as they would have answered. *)
Theorem getAvailableLanguages_copy (w : World) (l : list string) :
  is_Some (arrays (host w) !! availableLanguages (this w)) →
  let copy := fst (getAvailableLanguages w) in
  let w1 := snd (getAvailableLanguages w) in
  let w2 := mutateArray copy l w1 in
  copy ≠ availableLanguages (this w)
  ∧ arrays (host w1) !! copy = Some (availableList w)
  ∧ arrays (host w2) !! availableLanguages (this w2)
    = arrays (host w) !! availableLanguages (this w)
  ∧ availableList w2 = availableList w
  ∧ (∀ lang, isLanguageAvailable lang w2 = isLanguageAvailable lang w)
  ∧ detectLanguage w2 = detectLanguage w
  ∧ (∀ fuel lang,
       outcome (setLanguage fuel lang w2) = outcome (setLanguage fuel lang w)).
Proof.
  intros Hsome. unfold getAvailableLanguages. cbn [fst snd].
  set (copy := fresh (dom (arrays (host w)))).
  change (withHost _ w) with (mutateArray copy (availableList w) w).
  assert (copy ≠ availableLanguages (this w)) as Hne.
  { intros Heq. apply (is_fresh (dom (arrays (host w)))).
    fold copy. rewrite Heq. by apply elem_of_dom. }
  cbn zeta.
  assert (availableList (mutateArray copy l (mutateArray copy (availableList w) w))
          = availableList w) as Hlist.
  { by rewrite !mutateArray_availableList. }
  split; [done|]. split; [apply lookup_insert_eq|].
  split; [by rewrite !mutateArray_lookup|].
  split; [done|]. split; [|split].
  - intros lang. unfold isLanguageAvailable. by rewrite Hlist.
  - by rewrite !detectLanguage_mutateArray.
  - intros fuel lang. by rewrite !setLanguage_store, !outcome_store.
Qed.

Lemma getAvailableLanguages_copy_witness :
  is_Some (arrays (host freshWorld) !! availableLanguages (this freshWorld))
  ∧ isLanguageAvailable "fr"
      (mutateArray (fst (getAvailableLanguages freshWorld)) []
         (snd (getAvailableLanguages freshWorld)))
    = true.
Proof.
  assert (is_Some (arrays (host freshWorld) !! availableLanguages (this freshWorld)))
    as Hsome.
  { exists ["en"; "fr"]. vm_compute. reflexivity. }
  split; [exact Hsome|].
  rewrite (proj1 (proj2 (proj2 (proj2 (proj2
             (getAvailableLanguages_copy freshWorld [] Hsome))))) "fr").
  vm_compute. reflexivity.
Defined.

(** * Further properties *)

Section Paths.

Lemma split_nonempty sep s : JS.split sep s ≠ [].
Proof.
  destruct s as [|c s]; [done|]. cbn [JS.split].
  destruct (decide (c = sep)); [done|]. by destruct (JS.split sep s).
Qed.

(** Splitting at the separator splits the list of segments. *)
Lemma split_app sep a b :
  JS.split sep (a +:+ String sep b) = JS.split sep a ++ JS.split sep b.
Proof.
  induction a as [|c a IH].
  - rewrite append_nil_l. cbn [JS.split]. by rewrite decide_True.
  - rewrite append_cons. cbn [JS.split]. destruct (decide (c = sep)).
    + by rewrite IH.
    + rewrite IH. pose proof (split_nonempty sep a).
      by destruct (JS.split sep a).
Qed.

Lemma walk_app value keys1 keys2 :
  walk value (keys1 ++ keys2) = walk value keys1 ≫= fun v => walk v keys2.
Proof.
  revert value. induction keys1 as [|k keys1 IH]; intros value; [done|].
  cbn [app walk]. destruct value as [s|fields]; [done|].
  destruct (fields !! k); [apply IH|done].
Qed.

End Paths.

(** X1.  The loop of [get] over the segments of a key reads a key
    [a.b] as the key [a] followed, in what [a] leads to, by the key [b];
    when [a] leads nowhere, neither does [a.b]. *)
Theorem walk_dot_path (dict : Value) (a b : string) :
  walk dict (JS.split "." (a +:+ "." +:+ b))
  = walk dict (JS.split "." a) ≫= fun group => walk group (JS.split "." b).
Proof.
  change (a +:+ "." +:+ b) with (a +:+ String "." b).
  by rewrite split_app, walk_app.
Qed.

(** X2.  In a state whose cache is valid, [get] of a key that leads to
    a string returns that string: as it is when the parameter object has
    no key, interpolated otherwise. *)
Theorem get_leaf_string (key : string) (params : ParamMap) (w : World) (s : string) :
  cacheValid w →
  walk (languageDict (this w)) (JS.split "." key) = Some (VStr s) →
  fst (get key params w)
  = VStr (if bool_decide (params = []) then s else interpolate s params).
Proof.
  intros Hv Hw. rewrite get_resolve by done. unfold resolve. rewrite Hw. cbn.
  destruct params; done.
Qed.

Lemma get_leaf_string_witness :
  cacheValid formWorld
  ∧ fst (get "welcome" [("name", PStr "Marie")] formWorld) = VStr "Hello Marie!".
Proof.
  assert (cacheValid formWorld) as Hv.
  { intros ck v H.
    change (translationCache (this formWorld)) with (∅ : gmap string Value) in H.
    rewrite lookup_empty in H. discriminate H. }
  split; [exact Hv|].
  exact (get_leaf_string "welcome" [("name", PStr "Marie")] formWorld "Hello {name}!"
           Hv eq_refl).
Defined.


(** X4.  [get] never removes or overwrites a cache entry: on a hit the
    cache is as it was, on a miss it has exactly one entry more. *)
Theorem get_cache_growth (key : string) (params : ParamMap) (w : World) :
  translationCache (this w) ⊆ translationCache (this (snd (get key params w)))
  ∧ size (translationCache (this (snd (get key params w))))
    = (if decide (is_Some (translationCache (this w) !! cacheKey key params))
       then size (translationCache (this w))
       else S (size (translationCache (this w)))).
Proof.
  destruct (translationCache (this w) !! cacheKey key params) as [v|] eqn:E.
  - rewrite (get_hit _ _ _ _ E). cbn. rewrite decide_True by eauto. done.
  - destruct (get_miss _ _ _ E) as (_ & -> & _).
    rewrite decide_False by (by intros [? ?]). split.
    + by apply insert_subseteq.
    + by apply map_size_insert_None.
Qed.

Section Tokens.




Lemma dropString_length n s :
  n ≤ String.length s → String.length (dropString n s) = String.length s - n.
Proof.
  revert s. induction n as [|n IH]; intros [|c s]; cbn; try lia.
  intros H. apply IH. lia.
Qed.



End Tokens.





Section Detection.

Lemma find_elem_of {A} (P : A → bool) (l : list A) (x : A) :
  List.find P l = Some x → x ∈ l ∧ P x = true.
Proof.
  induction l as [|y l IH]; cbn; [done|].
  destruct (P y) eqn:E.
  - intros [= ->]. split; [apply list_elem_of_here|done].
  - intros H. apply IH in H as [? ?]. split; [by apply list_elem_of_further|done].
Qed.

Lemma lowerChar_not_upper c :
  let n := N_of_ascii (JS.lowerChar c) in ((65 <=? n) && (n <=? 90))%N = false.
Proof. destruct c as [[] [] [] [] [] [] [] []]; reflexivity. Qed.

Lemma toLowerCase_hasUpper s : hasUpper (JS.toLowerCase s) = false.
Proof.
  induction s as [|c s IH]; [done|]. cbn [JS.toLowerCase hasUpper].
  by rewrite lowerChar_not_upper, IH.
Qed.

Lemma startsWith_hasUpper s p :
  JS.startsWith s p = true → hasUpper s = false → hasUpper p = false.
Proof.
  revert s. induction p as [|a p IH]; intros s; [done|].
  destruct s as [|b s]; [done|]. cbn [JS.startsWith hasUpper].
  destruct (decide (a = b)) as [->|]; [|done].
  intros Hs [Hb Hu]%orb_false_iff. rewrite Hb. cbn. by apply (IH s).
Qed.

End Detection.

(** X7.  [detectLanguage] returns a member of [availableLanguages] or
    the configured default language, which need not be a member. *)
Theorem detectLanguage_range (w : World) :
  detectLanguage w ∈ availableList w
  ∨ detectLanguage w = defaultLanguage (config (this w)).
Proof.
  unfold detectLanguage.
  set (fromBrowser := if detectBrowser _ then _ else _).
  assert (fromBrowser ∈ availableList w
          ∨ fromBrowser = defaultLanguage (config (this w))) as Hb.
  { unfold fromBrowser. destruct (detectBrowser _); [|by right].
    destruct (List.find _ _) as [lang|] eqn:E; [|by right].
    left. by apply find_elem_of in E as [? _]. }
  destruct (getStoredLanguage w) as [saved|]; [|done].
  destruct (bool_decide (saved ≠ "") && JS.includes (availableList w) saved) eqn:E;
    [|done].
  apply andb_true_iff in E as [_ E]. left. by apply bool_decide_eq_true in E.
Qed.

(** X8.  Only the browser's language is put in lower case before the
    prefix test: an available tag written with an upper-case letter is
    never selected from the browser's language, it can only come from the
    stored preference or be the default. *)
Theorem detectLanguage_upper_case_tag (w : World) (tag : string) :
  hasUpper tag = true →
  getStoredLanguage w ≠ Some tag →
  tag ≠ defaultLanguage (config (this w)) →
  detectLanguage w ≠ tag.
Proof.
  intros Hu Hs Hdef. unfold detectLanguage.
  set (fromBrowser := if detectBrowser _ then _ else _).
  assert (fromBrowser ≠ tag) as Hb.
  { unfold fromBrowser. destruct (detectBrowser _); [|done].
    destruct (List.find _ _) as [lang|] eqn:E; [|done].
    intros ->. apply find_elem_of in E as [_ E].
    apply startsWith_hasUpper in E; [congruence|apply toLowerCase_hasUpper]. }
  destruct (getStoredLanguage w) as [saved|]; [|done].
  destruct (bool_decide (saved ≠ "") && JS.includes (availableList w) saved); [|done].
  congruence.
Qed.

Lemma detectLanguage_upper_case_tag_witness :
  navigatorLanguage (host regionalWorld) = "pt-BR"
  ∧ "pt-BR" ∈ availableList regionalWorld
  ∧ detectLanguage regionalWorld ≠ "pt-BR".
Proof.
  split; [reflexivity|]. split; [apply list_elem_of_here|].
  assert (getStoredLanguage regionalWorld ≠ Some "pt-BR") as Hs by done.
  assert ("pt-BR" ≠ defaultLanguage (config (this regionalWorld))) as Hd by done.
  exact (detectLanguage_upper_case_tag regionalWorld "pt-BR" eq_refl Hs Hd).
Defined.

Section Root.

Lemma assoc_assocSet_ne name other v l :
  name ≠ other → Dom.assoc name (Dom.assocSet other v l) = Dom.assoc name l.
Proof.
  intros Hne. induction l as [|[k x] l IH]; cbn.
  - by rewrite decide_False by done.
  - destruct (decide (k = other)) as [->|]; cbn.
    + by rewrite !decide_False by done.
    + destruct (decide (k = name)); [done|apply IH].
Qed.

Lemma assoc_assocSet_eq name v l : Dom.assoc name (Dom.assocSet name v l) = Some v.
Proof.
  induction l as [|[k x] l IH]; cbn.
  - by rewrite decide_True.
  - destruct (decide (k = name)) as [->|Hne]; cbn.
    + by rewrite decide_True.
    + by rewrite decide_False.
Qed.

Lemma rootKept_refl names n : rootKept names n n.
Proof. by split. Qed.

Lemma rootKept_trans names n1 n2 n3 :
  rootKept names n1 n2 → rootKept names n2 n3 → rootKept names n1 n3.
Proof.
  intros [H1 H1'] [H2 H2']. split; [congruence|].
  intros name Hn. by rewrite H2', H1'.
Qed.

Lemma rootKept_setProperty names name v n :
  name ∈ names → rootKept names n (Dom.setProperty name v n).
Proof.
  intros Hin. destruct n as [|tag attrs props kids]; [by split|].
  split; [done|]. intros other Ho. cbn. apply assoc_assocSet_ne.
  by intros ->.
Qed.

Lemma rootKept_setTextContent names v n : rootKept names n (Dom.setTextContent v n).
Proof. by destruct n. Qed.

Lemma rootKept_setAttribute names name v n :
  rootKept names n (Dom.setAttribute name v n).
Proof. by destruct n. Qed.

Lemma rootKept_updateAt names p f n :
  (∀ m, rootKept names m (f m)) → rootKept names n (Dom.updateAt p f n).
Proof.
  intros Hf. destruct p as [|i p]; [apply Hf|].
  destruct n as [|tag attrs props kids]; by split.
Qed.

Lemma translateEach_root names attr write els root w :
  (∀ el s n, rootKept names n (write el s n)) →
  rootKept names root (fst (translateEach attr write els root w)).
Proof.
  intros Hw. unfold translateEach. revert root w.
  induction els as [|[p el] els IH]; intros root w; [apply rootKept_refl|].
  cbn [foldl]. destruct (Dom.getAttribute attr el) as [key|]; [|apply IH].
  destruct (decide (key = "")); [apply IH|].
  destruct (get key [] w) as [translation w1].
  eapply rootKept_trans; [|apply IH]. apply rootKept_updateAt. intros m. apply Hw.
Qed.

Lemma rootKept_writeContent names el s n :
  "value" ∈ names → rootKept names n (writeContent el s n).
Proof.
  intros Hin. unfold writeContent. destruct (_ || _).
  - by apply rootKept_setProperty.
  - apply rootKept_setTextContent.
Qed.

Lemma contentPasses_root names attrs doc w :
  "value" ∈ names →
  rootKept names doc
    (fst (foldl
            (fun '(doc, w) attr =>
               translateEach attr writeContent
                 (Dom.documentQuerySelectorAll attr doc) doc w)
            (doc, w) attrs)).
Proof.
  intros Hin. revert doc w. induction attrs as [|attr attrs IH]; intros doc w;
    [apply rootKept_refl|].
  cbn [foldl].
  pose proof (translateEach_root names attr writeContent
                (Dom.documentQuerySelectorAll attr doc) doc w
                (fun el s n => rootKept_writeContent names el s n Hin)) as H.
  destruct (translateEach attr writeContent _ doc w) as [doc1 w1].
  eapply rootKept_trans; [exact H|apply IH].
Qed.

(** The full pass writes no property of the root element but [value],
    [placeholder] and [title]. *)
Lemma translatePage_root names w :
  "value" ∈ names → "placeholder" ∈ names → "title" ∈ names →
  rootKept names (document (host w)) (document (host (translatePage w))).
Proof.
  intros Hv Hp Ht. unfold translatePage.
  pose proof (contentPasses_root names (attributes (config (this w)))
                (document (host w)) w Hv) as H0.
  destruct (foldl _ _ _) as [doc0 w0]. cbn [fst] in H0.
  set (cfg := config (this w)).
  pose proof (translateEach_root names (placeholderAttribute cfg)
                (fun _ => Dom.setProperty "placeholder")
                (Dom.documentQuerySelectorAll (placeholderAttribute cfg) doc0) doc0 w0
                (fun _ s n => rootKept_setProperty names "placeholder" s n Hp)) as H1.
  destruct (translateEach (placeholderAttribute cfg) _ _ doc0 w0) as [doc1 w1].
  pose proof (translateEach_root names (titleAttribute cfg)
                (fun _ => Dom.setProperty "title")
                (Dom.documentQuerySelectorAll (titleAttribute cfg) doc1) doc1 w1
                (fun _ s n => rootKept_setProperty names "title" s n Ht)) as H2.
  destruct (translateEach (titleAttribute cfg) _ _ doc1 w1) as [doc2 w2].
  pose proof (translateEach_root names "translate-aria"
                (fun _ => Dom.setAttribute "aria-label")
                (Dom.documentQuerySelectorAll "translate-aria" doc2) doc2 w2
                (fun _ s n => rootKept_setAttribute names "aria-label" s n)) as H3.
  destruct (translateEach "translate-aria" _ _ doc2 w2) as [doc3 w3].
  cbn [fst] in *. cbn.
  eapply rootKept_trans; [exact H0|].
  eapply rootKept_trans; [exact H1|].
  eapply rootKept_trans; [exact H2|exact H3].
Qed.

Lemma assigned_value : "value" ∈ ["value"; "placeholder"; "title"; "lang"].
Proof. apply list_elem_of_here. Qed.

Lemma assigned_placeholder : "placeholder" ∈ ["value"; "placeholder"; "title"; "lang"].
Proof. apply list_elem_of_further, list_elem_of_here. Qed.

Lemma assigned_title : "title" ∈ ["value"; "placeholder"; "title"; "lang"].
Proof. do 2 apply list_elem_of_further. apply list_elem_of_here. Qed.

Lemma assigned_lang : "lang" ∈ ["value"; "placeholder"; "title"; "lang"].
Proof. do 3 apply list_elem_of_further. apply list_elem_of_here. Qed.

End Root.

Section Frames.

(** [get] touches nothing of the host but the console and the count of
    walks, and with [debug] off not the console. *)
Lemma host_eta (h : Host) :
  setConsole (console h) (setResolutions (resolutions h) h) = h.
Proof. by destruct h. Qed.

Lemma get_host key params w :
  ∃ c n, host (snd (get key params w)) = setConsole c (setResolutions n (host w))
         ∧ (debug (config (this w)) = false → c = console (host w)).
Proof.
  unfold get. destruct (_ !! _).
  - exists (console (host w)), (resolutions (host w)). by rewrite host_eta.
  - destruct (walk _ _); cbn.
    + exists (console (host w)), (S (resolutions (host w))). done.
    + unfold log. cbn. destruct (debug (config (this w))); cbn.
      * eexists _, (S (resolutions (host w))). done.
      * exists (console (host w)), (S (resolutions (host w))). done.
Qed.

Lemma gets_host calls w :
  ∃ c n, host (gets calls w) = setConsole c (setResolutions n (host w))
         ∧ (debug (config (this w)) = false → c = console (host w)).
Proof.
  revert w. induction calls as [|[k p] calls IH]; intros w.
  - exists (console (host w)), (resolutions (host w)). by rewrite host_eta.
  - rewrite gets_cons. destruct (IH (snd (get k p w))) as (c & n & Hh & Hc).
    destruct (get_host k p w) as (c' & n' & Hh' & Hc').
    exists c, n. split; [by rewrite Hh, Hh'|]. intros Hd. rewrite Hc.
    + rewrite Hh'. cbn. by apply Hc'.
    + by rewrite get_this.
Qed.

Lemma saveLanguage_host lang w :
  ∃ c, host (saveLanguage lang w)
       = setConsole c
           (setLocalStorage
              (insert (persistKey (config (this w))) lang <$> localStorage (host w))
              (host w))
       ∧ (debug (config (this w)) = false → c = console (host w)).
Proof.
  unfold saveLanguage, log. destruct w as [t [a [items|] nl d o c s r n]]; cbn.
  - by exists c.
  - destruct (debug (config t)); cbn; by eexists.
Qed.

(** What the [try] block leaves in the host. *)
Lemma applyLanguage_host lang data w :
  ∃ doc c n,
    host (applyLanguage lang data w)
    = setDocument (Dom.setProperty "lang" lang doc)
        (setConsole c
           (setResolutions n
              (setLocalStorage
                 (insert (persistKey (config (this w))) lang <$> localStorage (host w))
                 (host w))))
    ∧ rootKept ["value"; "placeholder"; "title"; "lang"] (document (host w)) doc
    ∧ (debug (config (this w)) = false → c = console (host w)).
Proof.
  unfold applyLanguage. cbn zeta.
  set (w0 := withThis (setTranslationCache ∅) _).
  assert (host w0 = host w) as Hh0 by done.
  assert (config (this w0) = config (this w)) as Hc0 by done.
  pose proof (translatePage_root _ (saveLanguage lang w0)
                assigned_value assigned_placeholder assigned_title) as Hroot.
  destruct (translatePage_gets (saveLanguage lang w0)) as (calls & doc & Heq).
  rewrite Heq in Hroot |- *. cbn in Hroot |- *.
  destruct (gets_host calls (saveLanguage lang w0)) as (c & n & -> & Hc).
  destruct (saveLanguage_host lang w0) as (c' & Hs & Hc').
  rewrite Hs in Hroot |- *. rewrite saveLanguage_this, Hc0 in Hc.
  rewrite Hc0, Hh0 in *. cbn in Hroot |- *.
  exists doc, c, n. split; [done|]. split; [done|].
  intros Hd. rewrite Hc by done. rewrite Hs. cbn. by apply Hc'.
Qed.

End Frames.

Section Kept.

Lemma kept_refl w : kept w w.
Proof.
  unfold kept. repeat split; auto using rootKept_refl.
  exists []. by rewrite app_nil_r.
Qed.

Lemma kept_trans w1 w2 w3 : kept w1 w2 → kept w2 w3 → kept w1 w3.
Proof.
  intros (Hc & Ha & Ho & Hr & Hn & Hg & Hs & Hl & Hd & [m Hm] & Hroot)
         (Hc' & Ha' & Ho' & Hr' & Hn' & Hg' & Hs' & Hl' & Hd' & [m' Hm'] & Hroot').
  unfold kept. rewrite Hc', Ha', Ho', Hr', Hn', Hg', Hs', Hl', Hm', Hm.
  repeat split; try tauto.
  - intros Hdebug. rewrite Hd', Hd; [done|done|by rewrite Hc].
  - exists (m ++ m'). by rewrite app_assoc.
  - by destruct Hroot, Hroot'; etrans.
  - intros name Hn0. destruct Hroot as [_ H], Hroot' as [_ H'].
    by rewrite H', H.
Qed.

Lemma kept_log message type w : kept w (log message type w).
Proof.
  unfold log. destruct (debug (config (this w))) eqn:E; [|apply kept_refl].
  unfold kept. cbn. rewrite E. repeat split; auto using rootKept_refl; try done.
  exists []. by rewrite app_nil_r.
Qed.

Lemma kept_announced lang w : kept w (announced lang w).
Proof. unfold announced. destruct (JS.includes _ _); [apply kept_refl|apply kept_log]. Qed.

Lemma kept_loadLanguageFile lang w : kept w (snd (loadLanguageFile lang w)).
Proof.
  unfold kept. rewrite loadLanguageFile_this, loadLanguageFile_host. cbn.
  repeat split; auto using rootKept_refl; eauto.
Qed.

Lemma kept_applyLanguage lang data w : kept w (applyLanguage lang data w).
Proof.
  destruct (applyLanguage_host lang data w) as (doc & c & n & Hh & Hroot & Hc).
  destruct (applyLanguage_this lang data w) as [cache Ht].
  unfold kept. rewrite Hh, Ht. cbn.
  repeat split; auto.
  - by destruct (localStorage (host w)).
  - by destruct (localStorage (host w)).
  - exists []. by rewrite app_nil_r.
  - destruct Hroot as [He _]. rewrite <- He. by destruct doc.
  - intros name Hn. destruct Hroot as [_ Hp]. rewrite <- Hp by done.
    destruct doc as [|tag attrs props kids]; [done|]. cbn.
    apply assoc_assocSet_ne. intros ->. by apply Hn, assigned_lang.
Qed.

Lemma kept_config w w' : kept w w' → config (this w') = config (this w).
Proof. by intros [H _]. Qed.

Lemma kept_availableList w w' : kept w w' → availableList w' = availableList w.
Proof. intros (_ & Ha & _ & Hr & _). unfold availableList. by rewrite Ha, Hr. Qed.

Lemma requested_fallback w :
  requested (fallbackLanguage (config (this w))) w = fallbackLanguage (config (this w)).
Proof. unfold requested. by destruct (JS.includes _ _). Qed.


(** An activation, whatever it returns, leaves alone what [kept]
    lists. *)
Lemma setLanguage_kept fuel lang w ok w' :
  setLanguage fuel lang w = Some (ok, w') → kept w w'.
Proof.
  revert lang w. induction fuel as [|fuel IH]; intros lang w; [done|].
  rewrite setLanguage_unfold. cbn zeta. unfold recover.
  pose proof (kept_announced lang w) as H0.
  pose proof (kept_loadLanguageFile (requested lang w) (announced lang w)) as H1.
  destruct (loadLanguageFile _ _) as [[data|message] w1]; cbn [snd] in H1.
  - pose proof (kept_applyLanguage (requested lang w) data w1) as H2.
    destruct (match onLanguageChange _ with Some _ => _ | None => _ end) as [m|].
    + destruct (decide _).
      * intros H%IH. repeat (etrans; [eassumption|]); eauto using kept_trans, kept_log.
      * intros [= <- <-]. eauto using kept_trans, kept_log.
    + intros [= <- <-]. eauto using kept_trans, kept_log.
  - destruct (decide _).
    + intros H%IH. eauto using kept_trans, kept_log.
    + intros [= <- <-]. eauto using kept_trans, kept_log.
Qed.

(** A successful activation ends with the [try] block run to its end for
    the language asked for or for the fallback language. *)
Lemma setLanguage_success fuel lang w w' :
  setLanguage fuel lang w = Some (true, w') →
  ∃ l data w0,
    (l = requested lang w ∨ l = fallbackLanguage (config (this w)))
    ∧ kept w w0
    ∧ w' = log ("Language set to: " +:+ l) "log" (applyLanguage l data w0).
Proof.
  revert lang w w'. induction fuel as [|fuel IH]; intros lang w; [done|].
  rewrite setLanguage_unfold. cbn zeta. unfold recover.
  pose proof (kept_announced lang w) as H0.
  pose proof (kept_loadLanguageFile (requested lang w) (announced lang w)) as H1.
  intros w'.
  assert (∀ w3 w', kept w w3 →
            setLanguage fuel (fallbackLanguage (config (this w))) w3 = Some (true, w') →
            ∃ l data w0,
              (l = requested lang w ∨ l = fallbackLanguage (config (this w)))
              ∧ kept w w0
              ∧ w' = log ("Language set to: " +:+ l) "log" (applyLanguage l data w0))
    as Hrec.
  { intros w3 w'0 H3 Hs. rewrite <- (kept_config _ _ H3) in Hs.
    destruct (IH _ _ _ Hs) as (l & data & w0 & Hl & Hk & ->).
    exists l, data, w0. rewrite requested_fallback, (kept_config _ _ H3) in Hl.
    split; [tauto|]. split; [|done]. by eapply kept_trans. }
  destruct (loadLanguageFile _ _) as [[data|message] w1]; cbn [snd] in H1.
  - pose proof (kept_applyLanguage (requested lang w) data w1) as H2.
    destruct (match onLanguageChange _ with Some _ => _ | None => _ end) as [m|].
    + destruct (decide _); [|done].
      apply Hrec. eauto using kept_trans, kept_log.
    + intros [= <-]. exists (requested lang w), data, w1.
      split; [by left|]. split; [|done]. by eapply kept_trans.
  - destruct (decide _); [|done].
    apply Hrec. eauto using kept_trans, kept_log.
Qed.

End Kept.

Section Activated.

(** The state the [try] block and the last [log] leave. *)
Lemma applied_state l data message type w0 w' :
  w' = log message type (applyLanguage l data w0) →
  currentLanguage (this w') = Some l
  ∧ languageDict (this w') = data
  ∧ config (this w') = config (this w0)
  ∧ (isElement (document (host w0)) = true →
     getProperty "lang" (document (host w')) = Some l)
  ∧ localStorage (host w')
    = (insert (persistKey (config (this w0))) l <$> localStorage (host w0))
  ∧ requests (host w') = requests (host w0).
Proof.
  intros ->.
  destruct (applyLanguage_host l data w0) as (doc & c & n & Hh & Hroot & Hc).
  destruct (applyLanguage_this l data w0) as [cache Ht].
  rewrite log_this, log_document, log_localStorage, log_requests, Hh, Ht. cbn.
  repeat split; try done.
  destruct Hroot as [He _]. rewrite <- He.
  destruct doc as [|tag attrs props kids]; [done|]. intros _. cbn.
  apply assoc_assocSet_eq.
Qed.

Lemma kept_isElement w w' :
  kept w w' → isElement (document (host w')) = isElement (document (host w)).
Proof. intros (_ & _ & _ & _ & _ & _ & _ & _ & _ & _ & [H _]). exact H. Qed.

Lemma kept_localStorage w w' :
  kept w w' → localStorage (host w) ≠ None → localStorage (host w') ≠ None.
Proof. intros (_ & _ & _ & _ & _ & _ & _ & H & _). tauto. Qed.

Lemma detectLanguage_stored w l :
  getStoredLanguage w = Some l → l ≠ "" → l ∈ availableList w →
  detectLanguage w = l.
Proof.
  intros Hs Hne Hin. unfold detectLanguage. rewrite Hs.
  rewrite bool_decide_eq_true_2 by done.
  unfold JS.includes. by rewrite bool_decide_eq_true_2.
Qed.

End Activated.

(** X9.  When [setLanguage] returns [true], the current language is the
    language asked for (the fallback when that is not available) or the
    fallback language; the [lang] property of the root element and the
    stored preference, when [localStorage] can be used, are that
    language. *)
Theorem setLanguage_activated (fuel : nat) (lang : string) (w w' : World) :
  setLanguage fuel lang w = Some (true, w') →
  ∃ l, (l = requested lang w ∨ l = fallbackLanguage (config (this w)))
       ∧ getCurrentLanguage w' = Some l
       ∧ (isElement (document (host w)) = true →
          getProperty "lang" (document (host w')) = Some l)
       ∧ (localStorage (host w) ≠ None → getStoredLanguage w' = Some l).
Proof.
  intros (l & data & w0 & Hl & Hk & Hw)%setLanguage_success.
  destruct (applied_state _ _ _ _ _ _ Hw) as (Hc & _ & Hcfg & Hdoc & Hls & _).
  exists l. split; [done|]. split; [done|]. split.
  - intros He. apply Hdoc. by rewrite (kept_isElement _ _ Hk).
  - intros Hs. apply (kept_localStorage _ _ Hk) in Hs.
    unfold getStoredLanguage. rewrite Hls, Hcfg.
    destruct (localStorage (host w0)) as [items|]; [|done]. cbn.
    apply lookup_insert_eq.
Qed.

Lemma setLanguage_activated_witness :
  ∃ w', setLanguage 2 "de" freshWorld = Some (true, w')
        ∧ getCurrentLanguage w' = Some "en"
        ∧ getStoredLanguage w' = Some "en".
Proof.
  destruct (setLanguage 2 "de" freshWorld) as [[[] w']|] eqn:E;
    try (vm_compute in E; discriminate E).
  exists w'. split; [done|].
  destruct (setLanguage_activated 2 "de" freshWorld w' E) as (l & Hl & Hc & _ & Hs).
  assert (l = "en") as -> by (by destruct Hl as [->| ->]).
  split; [done|]. by apply Hs.
Defined.

(** X10.  What [saveLanguage] stores during a successful activation is
    what [detectLanguage] selects later, in any instance that reads the
    same storage under the same key, provided the language is not the
    empty string and is available there. *)
Theorem setLanguage_remembered (fuel : nat) (lang l : string) (w w' next : World) :
  setLanguage fuel lang w = Some (true, w') →
  getCurrentLanguage w' = Some l →
  localStorage (host w) ≠ None →
  localStorage (host next) = localStorage (host w') →
  persistKey (config (this next)) = persistKey (config (this w)) →
  l ≠ "" →
  l ∈ availableList next →
  detectLanguage next = l.
Proof.
  intros (l' & data & w0 & Hl & Hk & Hw)%setLanguage_success Hcur Hs Hnext Hkey Hne Hin.
  destruct (applied_state _ _ _ _ _ _ Hw) as (Hc & _ & Hcfg & _ & Hls & _).
  unfold getCurrentLanguage in Hcur. rewrite Hc in Hcur. injection Hcur as ->.
  apply detectLanguage_stored; [|done|done].
  apply (kept_localStorage _ _ Hk) in Hs.
  unfold getStoredLanguage. rewrite Hnext, Hls, Hkey, <- (kept_config _ _ Hk).
  destruct (localStorage (host w0)) as [items|]; [|done]. cbn.
  apply lookup_insert_eq.
Qed.

Lemma setLanguage_remembered_witness :
  ∃ w', setLanguage 2 "de" freshWorld = Some (true, w')
        ∧ detectLanguage {| this := newInstance defaultConfig 0; host := host w' |}
          = "en".
Proof.
  destruct (setLanguage 2 "de" freshWorld) as [[[] w']|] eqn:E;
    try (vm_compute in E; discriminate E).
  exists w'. split; [done|].
  assert (kept freshWorld w') as Hk by (by eapply setLanguage_kept).
  assert (getCurrentLanguage w' = Some "en") as Hc.
  { destruct (setLanguage_success _ _ _ _ E) as (l & data & w0 & Hl & _ & Hw).
    destruct (applied_state _ _ _ _ _ _ Hw) as (Hc & _).
    by destruct Hl as [->| ->]. }
  apply (setLanguage_remembered 2 "de" "en" freshWorld w' _ E Hc); try done.
  unfold availableList. cbn.
  destruct Hk as (_ & _ & _ & -> & _). cbn. apply list_elem_of_here.
Defined.

Section Requests.


Lemma announced_requests lang w : requests (host (announced lang w)) = requests (host w).
Proof. unfold announced. destruct (JS.includes _ _); [done|apply log_requests]. Qed.


Lemma languageUrl_config lang w w' :
  config (this w') = config (this w) → languageUrl lang w' = languageUrl lang w.
Proof. unfold languageUrl. by intros ->. Qed.

Lemma applyLanguage_requests lang data w :
  requests (host (applyLanguage lang data w)) = requests (host w).
Proof.
  by destruct (applied_state lang data "" "" w _ eq_refl) as (_ & _ & _ & _ & _ & <-);
    rewrite log_requests.
Qed.

Lemma loadLanguageFile_requests lang w :
  requests (host (snd (loadLanguageFile lang w)))
  = requests (host w) ++ [languageUrl lang w].
Proof. by rewrite loadLanguageFile_host. Qed.

(** The requests of an activation of the fallback language. *)
Lemma setLanguage_fallback_requests fuel w ok w' :
  setLanguage fuel (fallbackLanguage (config (this w))) w = Some (ok, w') →
  requests (host w')
  = requests (host w) ++ [languageUrl (fallbackLanguage (config (this w))) w].
Proof.
  destruct fuel as [|fuel]; [done|].
  rewrite setLanguage_unfold. cbn zeta. rewrite requested_fallback.
  set (fb := fallbackLanguage (config (this w))).
  pose proof (loadLanguageFile_requests fb (announced fb w)) as Hr.
  rewrite announced_requests in Hr.
  rewrite (languageUrl_config fb w (announced fb w)) in Hr by (by rewrite announced_this).
  destruct (loadLanguageFile _ _) as [[data|message] w1]; cbn [snd] in Hr.
  - destruct (match onLanguageChange _ with Some _ => _ | None => _ end).
    + rewrite recover_fallback. intros [= <- <-].
      by rewrite log_requests, applyLanguage_requests.
    + intros [= <- <-]. by rewrite log_requests, applyLanguage_requests.
  - rewrite recover_fallback. intros [= <- <-]. by rewrite log_requests.
Qed.

End Requests.

(** X11.  An activation makes one request, for the file of the language
    asked for (the fallback when that is not available), or two, the
    second for the file of the fallback language and only when the first
    language is not the fallback. *)
Theorem setLanguage_requests (fuel : nat) (lang : string) (w : World) (ok : bool)
    (w' : World) :
  setLanguage fuel lang w = Some (ok, w') →
  let first := languageUrl (requested lang w) w in
  let second := languageUrl (fallbackLanguage (config (this w))) w in
  requests (host w') = requests (host w) ++ [first]
  ∨ (requested lang w ≠ fallbackLanguage (config (this w))
     ∧ requests (host w') = requests (host w) ++ [first; second]).
Proof.
  destruct fuel as [|fuel]; [done|].
  rewrite setLanguage_unfold. cbn zeta. unfold recover.
  set (l := requested lang w).
  pose proof (loadLanguageFile_requests l (announced lang w)) as Hr.
  pose proof (loadLanguageFile_this l (announced lang w)) as Ht.
  rewrite announced_requests in Hr. rewrite announced_this in Ht.
  rewrite (languageUrl_config l w (announced lang w)) in Hr by (by rewrite announced_this).
  assert (∀ m w3, config (this w3) = config (this w) →
            requests (host w3) = requests (host w) ++ [languageUrl l w] →
            (if decide (l ≠ fallbackLanguage (config (this w)))
             then setLanguage fuel (fallbackLanguage (config (this w)))
                    (log m "error" w3)
             else Some (false, log m "error" w3)) = Some (ok, w') →
            requests (host w') = requests (host w) ++ [languageUrl l w]
            ∨ (l ≠ fallbackLanguage (config (this w))
               ∧ requests (host w')
                 = requests (host w)
                   ++ [languageUrl l w;
                       languageUrl (fallbackLanguage (config (this w))) w]))
    as Hrec.
  { intros m w3 Hc Hq. destruct (decide _) as [Hne|_].
    - intros Hs. right. split; [done|].
      assert (config (this (log m "error" w3)) = config (this w)) as Hc'
        by (by rewrite log_this).
      rewrite <- Hc' in Hs. apply setLanguage_fallback_requests in Hs.
      rewrite Hs, log_requests, Hq, Hc', <- app_assoc. cbn.
      by rewrite (languageUrl_config _ w (log m "error" w3)).
    - intros [= <- <-]. left. by rewrite log_requests. }
  destruct (loadLanguageFile _ _) as [[data|message] w1]; cbn [snd] in Hr, Ht.
  - destruct (match onLanguageChange _ with Some _ => _ | None => _ end) as [m|].
    + apply Hrec.
      * by rewrite applyLanguage_config, Ht.
      * by rewrite applyLanguage_requests.
    + intros [= <- <-]. left. by rewrite log_requests, applyLanguage_requests.
  - apply Hrec; [by rewrite Ht|done].
Qed.

Lemma setLanguage_requests_witness :
  ∃ ok w', setLanguage 2 "fr" freshWorld = Some (ok, w')
           ∧ (requests (host w') = ["./lang/fr.json"]
              ∨ requests (host w') = ["./lang/fr.json"; "./lang/en.json"]).
Proof.
  destruct (setLanguage 2 "fr" freshWorld) as [[ok w']|] eqn:E;
    [|vm_compute in E; discriminate E].
  exists ok, w'. split; [done|].
  destruct (setLanguage_requests 2 "fr" freshWorld ok w' E) as [H|[_ H]];
    [left|right]; exact H.
Defined.

Section Callback.

Lemma announced_fst_load l lang w :
  fst (loadLanguageFile l (announced lang w)) = fst (loadLanguageFile l w).
Proof.
  unfold announced. destruct (JS.includes _ _); [done|apply loadLanguageFile_log].
Qed.

End Callback.

(** X12.  The change callback runs inside the [try] block.  With a
    callback that always throws no activation returns [true]; and when the
    file of the fallback language loads, its activation returns [false]
    although the dictionary has been replaced and the fallback has become
    the current language. *)
Theorem setLanguage_callback_throws (fuel : nat) (w : World)
    (callback : string → option string) :
  onLanguageChange (config (this w)) = Some callback →
  (∀ l, callback l ≠ None) →
  (∀ lang ok w', setLanguage fuel lang w = Some (ok, w') → ok = false)
  ∧ (∀ data,
       fst (loadLanguageFile (fallbackLanguage (config (this w))) w) = inl data →
       ∃ w', setLanguage (S fuel) (fallbackLanguage (config (this w))) w
             = Some (false, w')
             ∧ getCurrentLanguage w' = Some (fallbackLanguage (config (this w)))
             ∧ languageDict (this w') = data).
Proof.
  intros Hcb Hthrows. split.
  - revert w Hcb. induction fuel as [|fuel IH]; intros w Hcb lang ok w'; [done|].
    rewrite setLanguage_unfold. cbn zeta. unfold recover. rewrite Hcb.
    pose proof (loadLanguageFile_this (requested lang w) (announced lang w)) as Ht.
    rewrite announced_this in Ht.
    destruct (loadLanguageFile _ _) as [[data|message] w1]; cbn [snd] in Ht.
    + destruct (callback (requested lang w)) as [m|] eqn:E; [|by apply Hthrows in E].
      destruct (decide _); [|by intros [= <- _]].
      set (w3 := log _ _ _). intros Hs.
      assert (config (this w3) = config (this w)) as Hc
        by (unfold w3; by rewrite log_this, applyLanguage_config, Ht).
      rewrite <- Hc in Hs. apply IH in Hs; [done|by rewrite Hc].
    + destruct (decide _); [|by intros [= <- _]].
      set (w3 := log _ _ _). intros Hs.
      assert (config (this w3) = config (this w)) as Hc
        by (unfold w3; by rewrite log_this, Ht).
      rewrite <- Hc in Hs. apply IH in Hs; [done|by rewrite Hc].
  - intros data Hload. rewrite setLanguage_unfold. cbn zeta.
    rewrite requested_fallback, Hcb.
    set (fb := fallbackLanguage (config (this w))) in *.
    rewrite <- (announced_fst_load fb fb w) in Hload.
    destruct (loadLanguageFile fb (announced fb w)) as [r w1]. cbn in Hload. subst r.
    destruct (callback fb) as [m|] eqn:E; [|by apply Hthrows in E].
    unfold fb at 1. rewrite recover_fallback. eexists. split; [done|]. fold fb.
    match goal with
    | |- getCurrentLanguage (log ?m ?t _) = _ ∧ _ =>
        destruct (applied_state fb data m t w1 _ eq_refl) as (Hc & Hd & _)
    end.
    split; [exact Hc|exact Hd].
Qed.

Lemma setLanguage_callback_throws_witness :
  ∃ w', setLanguage 1 "en" callbackWorld = Some (false, w')
        ∧ getCurrentLanguage w' = Some "en"
        ∧ languageDict (this w') = english.
Proof.
  assert (∀ l, (fun _ : string => Some "validateForm is not defined") l ≠ None)
    as Hthrows by done.
  destruct (setLanguage_callback_throws 0 callbackWorld _ eq_refl Hthrows)
    as [_ H].
  exact (H english eq_refl).
Defined.





(** X15.  After a successful activation, [applyDirection] sets the [dir]
    property of the root element to [rtl] when the current language is one
    of [ar], [he], [fa], [ur] as a whole tag and to [ltr] otherwise, and
    leaves the instance and the [lang] property as they are. *)
Theorem applyDirection_after_setLanguage (fuel : nat) (lang : string) (w w' : World) :
  setLanguage fuel lang w = Some (true, w') →
  isElement (document (host w)) = true →
  ∃ l, getCurrentLanguage w' = Some l
       ∧ this (applyDirection w') = this w'
       ∧ getProperty "dir" (document (host (applyDirection w')))
         = Some (if bool_decide (l ∈ ["ar"; "he"; "fa"; "ur"]) then "rtl" else "ltr")
       ∧ getProperty "lang" (document (host (applyDirection w'))) = Some l.
Proof.
  intros (l & data & w0 & Hl & Hk & Hw)%setLanguage_success He.
  destruct (applied_state _ _ _ _ _ _ Hw) as (Hc & _ & _ & Hdoc & _).
  rewrite <- (kept_isElement _ _ Hk) in He. specialize (Hdoc He).
  exists l. split; [done|]. split; [done|].
  unfold applyDirection, getLanguageDirection. rewrite Hc. cbn.
  destruct (document (host w')) as [|tag attrs props kids]; [done|]. cbn in *.
  split; [apply assoc_assocSet_eq|].
  by rewrite assoc_assocSet_ne.
Qed.

Lemma applyDirection_after_setLanguage_witness :
  ∃ w', setLanguage 2 "de" freshWorld = Some (true, w')
        ∧ getProperty "dir" (document (host (applyDirection w'))) = Some "ltr".
Proof.
  destruct (setLanguage 2 "de" freshWorld) as [[[] w']|] eqn:E;
    try (vm_compute in E; discriminate E).
  exists w'. split; [done|].
  destruct (applyDirection_after_setLanguage 2 "de" freshWorld w' E eq_refl)
    as (l & Hc & _ & Hd & _).
  destruct (setLanguage_success _ _ _ _ E) as (l' & data & w0 & Hl & _ & Hw).
  destruct (applied_state _ _ _ _ _ _ Hw) as (Hc' & _).
  unfold getCurrentLanguage in Hc. rewrite Hc' in Hc. injection Hc as <-.
  by destruct Hl as [->| ->].
Defined.

Section Calls.



End Calls.



(** X17.  The constructor keeps the caller's array of available
    languages itself, not a copy: what the caller does to its array later
    is what the instance sees.  Without the option the instance has a new
    array, which no array that existed before reaches. *)
Theorem construct_shares_array (input : ConfigInput) (h : Host) (ref : nat)
    (l : list string) :
  (inAvailableLanguages input = Some ref →
   availableList (mutateArray ref l (construct input h)) = l)
  ∧ (inAvailableLanguages input = None →
     ref ∈ dom (arrays h) →
     availableList (mutateArray ref l (construct input h)) = ["en"; "fr"]).
Proof.
  unfold construct. split.
  - intros ->. unfold availableList. cbn. by rewrite lookup_insert_eq.
  - intros -> Hin. unfold availableList. cbn.
    assert (fresh (dom (arrays h)) ≠ ref) as Hne.
    { intros Heq. rewrite <- Heq in Hin. by apply is_fresh in Hin. }
    by rewrite lookup_insert_ne, lookup_insert_eq.
Qed.

Lemma construct_shares_array_witness :
  availableList
    (mutateArray 0 ["en"; "fr"; "de"]
       (construct ownArrayInput (browser (page []) englishOnly)))
  = ["en"; "fr"; "de"].
Proof.
  exact (proj1 (construct_shares_array ownArrayInput (browser (page []) englishOnly)
                  0 ["en"; "fr"; "de"]) eq_refl).
Defined.


Section Init.

Lemma observeDOMChanges_this w :
  this (observeDOMChanges w)
  = setObservers
      (observers (this w)
       ++ [fresh (observing (host w) ∪ list_to_set (observers (this w)))])
      (this w).
Proof. done. Qed.


End Init.





(** X21.  An observer registered by [observeDOMChanges] is undone by
    [destroy]: destroying after the registration gives the state that
    destroying alone gives. *)
Theorem destroy_observeDOMChanges (w : World) :
  destroy (observeDOMChanges w) = destroy w.
Proof.
  set (o := fresh (observing (host w) ∪ list_to_set (observers (this w)))).
  assert (foldl (fun s x => s ∖ {[x]}) ({[o]} ∪ observing (host w))
            (observers (this w) ++ [o])
          = foldl (fun s x => s ∖ {[x]}) (observing (host w)) (observers (this w)))
    as Heq.
  { apply set_eq. intros x. rewrite !disconnect_all.
    rewrite elem_of_union, elem_of_singleton, elem_of_app, list_elem_of_singleton.
    assert (o ∉ observing (host w)) as Hfresh.
    { intros Hin.
      apply (is_fresh (observing (host w) ∪ list_to_set (observers (this w)))).
      by apply elem_of_union_l. }
    split.
    - intros [[->|Hx] Hn]; [by destruct Hn; right|]. split; [done|].
      intros Hin. apply Hn. by left.
    - intros [Hx Hn]. split; [by right|]. intros [Hin| ->]; done. }
  unfold destroy. f_equal.
  unfold observeDOMChanges, withThis, withHost, setObserving, setObservers,
    setTranslationCache.
  cbn [this host observers observing arrays localStorage navigatorLanguage
       document console server requests resolutions config currentLanguage
       languageDict availableLanguages translationCache].
  fold o. by rewrite Heq.
Qed.

Section Element.

Lemma filter_none {A} (P : A → Prop) `{∀ x, Decision (P x)} (l : list A) :
  Forall (fun x => ¬ P x) l → filter P l = [].
Proof.
  induction 1 as [|x l Hx _ IH]; [done|]. by rewrite filter_cons_False.
Qed.

Lemma unmarked_querySelectorAll attr el :
  unmarked attr el → Dom.querySelectorAll attr el = [].
Proof.
  intros Hu. unfold Dom.querySelectorAll. apply filter_none.
  eapply Forall_impl; [exact Hu|]. intros [p e] He [_ [v Hv]]. congruence.
Qed.

Lemma unmarked_getAttribute attr el : unmarked attr el → Dom.getAttribute attr el = None.
Proof.
  destruct el as [|tag attrs props kids]; [done|].
  unfold unmarked. cbn [Dom.elements]. by intros [H _]%Forall_cons.
Qed.

End Element.

(** X22.  On an element that carries none of the configured content
    attributes, and has no descendant that does, [translateElement]
    changes neither the element nor the state. *)
Theorem translateElement_unmarked (element : Node) (w : World) :
  Forall (fun attr => unmarked attr element) (attributes (config (this w))) →
  translateElement element w = (element, w).
Proof.
  unfold translateElement. generalize (attributes (config (this w))).
  intros attrs Hu.
  assert (foldl
            (fun '(element, w) attr =>
               if Dom.hasAttribute attr element then
                 match Dom.getAttribute attr element with
                 | Some key =>
                     if decide (key = "") then (element, w)
                     else let '(translation, w) := get key [] w in
                          (Dom.setTextContent (toDOMString translation) element, w)
                 | None => (element, w)
                 end
               else (element, w))
            (element, w) attrs = (element, w)) as ->.
  { induction Hu as [|attr attrs Ha _ IH]; [done|]. cbn [foldl].
    unfold Dom.hasAttribute. rewrite (unmarked_getAttribute _ _ Ha).
    rewrite bool_decide_eq_false_2 by (by intros [? ?]). exact IH. }
  destruct element as [data|tag eattrs props kids]; [done|].
  induction Hu as [|attr attrs Ha _ IH]; [done|]. cbn [foldl].
  rewrite (unmarked_querySelectorAll _ _ Ha). exact IH.
Qed.

Lemma translateElement_unmarked_witness :
  translateElement (Element "P" [("class", "note")] [] [Text "plain"]) navWorld
  = (Element "P" [("class", "note")] [] [Text "plain"], navWorld).
Proof.
  apply translateElement_unmarked.
  change (attributes (config (this navWorld))) with ["translate"; "data-translate"].
  repeat (apply Forall_cons; split;
          [unfold unmarked; cbn; by repeat constructor|]).
  apply Forall_nil_2.
Defined.

Section Marked.

Lemma getAttribute_setTextContent a v el :
  Dom.getAttribute a (Dom.setTextContent v el) = Dom.getAttribute a el.
Proof. by destruct el. Qed.

Lemma setTextContent_twice v v' el :
  Dom.setTextContent v (Dom.setTextContent v' el) = Dom.setTextContent v el.
Proof. by destruct el. Qed.

Lemma querySelectorAll_setTextContent attr v el :
  Dom.querySelectorAll attr (Dom.setTextContent v el) = [].
Proof.
  destruct el as [data|tag attrs props kids]; [done|].
  unfold Dom.querySelectorAll. apply filter_none.
  cbn. destruct (decide (v = "")); cbn; repeat constructor; by intros [? _].
Qed.

Lemma childPasses_leaf attrs e w :
  (∀ attr, Dom.querySelectorAll attr e = []) →
  foldl
    (fun '(element, w) attr =>
       translateEach attr (fun _ => Dom.setTextContent)
         (Dom.querySelectorAll attr element) element w)
    (e, w) attrs = (e, w).
Proof.
  intros Hq. induction attrs as [|attr attrs IH]; [done|].
  cbn [foldl]. by rewrite Hq.
Qed.

(** The pass over the element itself: the text written last is that of
    the last marker. *)
Lemma selfPass_lastMarker dict el attrs e w found :
  cacheValid w → languageDict (this w) = dict →
  (e = match found with
       | Some k => Dom.setTextContent (toDOMString (resolve dict k [])) el
       | None => el
       end) →
  fst (foldl
         (fun '(element, w) attr =>
            if Dom.hasAttribute attr element then
              match Dom.getAttribute attr element with
              | Some key =>
                  if decide (key = "") then (element, w)
                  else let '(translation, w) := get key [] w in
                       (Dom.setTextContent (toDOMString translation) element, w)
              | None => (element, w)
              end
            else (element, w))
         (e, w) attrs)
  = match foldl
            (fun found attr =>
               match Dom.getAttribute attr el with
               | Some key => if decide (key = "") then found else Some key
               | None => found
               end)
            found attrs with
    | Some k => Dom.setTextContent (toDOMString (resolve dict k [])) el
    | None => el
    end.
Proof.
  revert e w found. induction attrs as [|attr attrs IH]; intros e w found Hv Hd He.
  - done.
  - cbn [foldl].
    assert (Dom.getAttribute attr e = Dom.getAttribute attr el) as Ha.
    { subst e. destruct found; [apply getAttribute_setTextContent|done]. }
    unfold Dom.hasAttribute. rewrite Ha.
    destruct (Dom.getAttribute attr el) as [key|].
    + rewrite bool_decide_eq_true_2 by eauto.
      destruct (decide (key = "")); [by apply IH|].
      pose proof (get_resolve key [] w Hv) as Hr.
      pose proof (get_cacheValid key [] w Hv) as Hv'.
      pose proof (get_languageDict key [] w) as Hd'.
      destruct (get key [] w) as [translation w1]. cbn in Hr, Hv', Hd'.
      apply IH; [done|congruence|].
      subst e translation dict.
      destruct found; [apply setTextContent_twice|done].
    + rewrite bool_decide_eq_false_2 by (by intros [? ?]). by apply IH.
Qed.

End Marked.

(** X23.  On an element whose last configured content attribute with a
    non-empty value holds [key], [translateElement] leaves the element with
    the translation of [key] as its whole text content: its former
    children, marked or not, are gone, and the pass over the descendants
    finds nothing. *)
Theorem translateElement_marked (element : Node) (w : World) (key : string) :
  cacheValid w →
  lastMarker (attributes (config (this w))) element = Some key →
  fst (translateElement element w)
  = Dom.setTextContent (toDOMString (resolve (languageDict (this w)) key [])) element
  ∧ ∀ attr, Dom.querySelectorAll attr (fst (translateElement element w)) = [].
Proof.
  intros Hv Hm. unfold translateElement.
  pose proof (selfPass_lastMarker (languageDict (this w)) element
                (attributes (config (this w))) element w None Hv eq_refl eq_refl)
    as Hself.
  unfold lastMarker in Hm. rewrite Hm in Hself.
  destruct (foldl _ (element, w) _) as [e0 w0]. cbn [fst] in Hself. subst e0.
  set (e := Dom.setTextContent _ element).
  assert (∀ attr, Dom.querySelectorAll attr e = []) as Hq
    by (intros attr; apply querySelectorAll_setTextContent).
  destruct e as [data|tag attrs props kids] eqn:E; [done|].
  rewrite childPasses_leaf by done. done.
Qed.

Lemma translateElement_marked_witness :
  fst (translateElement
         (Element "NAV" [("translate", "nav.home")] []
            [Element "A" [("translate", "nav.home")] [] []])
         navWorld)
  = Element "NAV" [("translate", "nav.home")] [] [Text "Home"].
Proof.
  assert (cacheValid navWorld) as Hv.
  { intros ck v H.
    change (translationCache (this navWorld)) with (∅ : gmap string Value) in H.
    rewrite lookup_empty in H. discriminate H. }
  exact (proj1 (translateElement_marked
                  (Element "NAV" [("translate", "nav.home")] []
                     [Element "A" [("translate", "nav.home")] [] []])
                  navWorld "nav.home" Hv eq_refl)).
Defined.

Section Page.

Lemma unmarked_documentQuerySelectorAll attr doc :
  unmarked attr doc → Dom.documentQuerySelectorAll attr doc = [].
Proof.
  intros Hu. unfold Dom.documentQuerySelectorAll. apply filter_none.
  eapply Forall_impl; [exact Hu|]. intros [p e] He [v Hv]. congruence.
Qed.

Lemma world_eta w : withHost (setDocument (document (host w))) w = w.
Proof. by destruct w as [t []]. Qed.

End Page.

(** X24.  On a document in which no element carries a content,
    placeholder, title or [translate-aria] marker, [translatePage] changes
    nothing. *)
Theorem translatePage_unmarked (w : World) :
  Forall (fun attr => unmarked attr (document (host w)))
    (attributes (config (this w))
     ++ [placeholderAttribute (config (this w)); titleAttribute (config (this w));
         "translate-aria"]) →
  translatePage w = w.
Proof.
  intros [Hc Hrest]%Forall_app.
  apply Forall_cons in Hrest as [Hp Hrest].
  apply Forall_cons in Hrest as [Ht Hrest].
  apply Forall_cons in Hrest as [Ha _].
  unfold translatePage.
  assert (foldl
            (fun '(doc, w) attr =>
               translateEach attr writeContent (Dom.documentQuerySelectorAll attr doc)
                 doc w)
            (document (host w), w) (attributes (config (this w)))
          = (document (host w), w)) as ->.
  { induction Hc as [|attr attrs Hattr _ IH]; [done|]. cbn [foldl].
    by rewrite (unmarked_documentQuerySelectorAll _ _ Hattr). }
  rewrite (unmarked_documentQuerySelectorAll _ _ Hp). cbn [translateEach foldl].
  rewrite (unmarked_documentQuerySelectorAll _ _ Ht). cbn [translateEach foldl].
  rewrite (unmarked_documentQuerySelectorAll _ _ Ha). cbn [translateEach foldl].
  apply world_eta.
Qed.

Lemma translatePage_unmarked_witness :
  translatePage noDetectionWorld = noDetectionWorld.
Proof.
  apply translatePage_unmarked.
  change (document (host noDetectionWorld)) with (page []).
  repeat (apply Forall_cons; split;
          [unfold unmarked; cbn; by repeat constructor|]).
  apply Forall_nil_2.
Defined.

